(** * neovim-qt: start-up of the GUI front end ([src/gui/main.cpp])

    A shallow embedding of [main]: the split of the command line at the
    [--spawn] and [--] markers, the checks on the mode flags, the search for
    the runtime directory and the choice of the connector.

    The Qt classes [main] calls are not part of the repository; the fragment
    of each one that [main] uses is modelled in a module of its name, from
    Qt 5's documented behaviour. *)

From Stdlib Require Import List String Ascii ZArith Bool Lia.
Import ListNotations.

Local Open Scope string_scope.
Local Open Scope list_scope.
Local Open Scope Z_scope.

(** ** Qt containers *)

Module QList.

(** [QList::indexOf(value)]: index of the first element equal to [value],
    [-1] when there is none.  [i] is the index of the head of [l]. *)
Fixpoint indexOf_from (l : list string) (value : string) (i : Z) : Z :=
  match l with
  | [] => -1
  | x :: t => if String.eqb x value then i else indexOf_from t value (i + 1)
  end.

Definition indexOf (l : list string) (value : string) : Z :=
  indexOf_from l value 0.

(** [QList::mid(pos, length)]: the sub-list of at most [length] elements
    starting at [pos]; a negative [length], or one that runs over the end,
    takes everything from [pos] (Qt's [QContainerImplHelper::mid]). *)
Definition mid (l : list string) (pos length : Z) : list string :=
  let size := Z.of_nat (List.length l) in
  if size <? pos then []
  else if pos <? 0 then
    if (length <? 0) || (size <=? length + pos) then l
    else if length + pos <=? 0 then []
    else firstn (Z.to_nat (length + pos)) l
  else
    let length' :=
      if (length <? 0) || (size - pos <? length) then size - pos
      else length in
    firstn (Z.to_nat length') (skipn (Z.to_nat pos) l).

(** [mid(pos)]: the default [length] is [-1]. *)
Definition mid_from (l : list string) (pos : Z) : list string :=
  mid l pos (-1).

Definition isEmpty (l : list string) : bool :=
  match l with [] => true | _ :: _ => false end.

(** [QList::at(i)]; out of range is an assertion failure, [None] here. *)
Definition at_ (l : list string) (i : nat) : option string :=
  nth_error l i.

(** [QList::insert(i, value)]: [value] is placed before index [i]; at the
    end when [i] is the size or more. *)
Definition insert (l : list string) (i : nat) (value : string)
  : list string :=
  firstn i l ++ value :: skipn i l.

End QList.

(** ** The split of the command line (main.cpp, lines 106-124) *)

Record PartitionResult := mkPartition {
  launcherArgs : list string;   (* [args], handed to [parser.process] *)
  spawnArgs    : list string;
  neovimArgs   : list string
}.

(** The three branches of [main]; each one calls [parser.process] on its
    [args], which is the field [launcherArgs] here.  [arguments] is
    [app->arguments()]. *)
Definition partition (arguments : list string) : PartitionResult :=
  let positionalMarker := QList.indexOf arguments "--" in
  let neovimArgs := ["--cmd"; "set termguicolors"] in
  let spawn_idx := QList.indexOf arguments "--spawn" in
  if negb (spawn_idx =? -1)
     && ((spawn_idx <? positionalMarker) || (positionalMarker =? -1))
  then
    mkPartition (QList.mid arguments 0 (spawn_idx + 1))
                (QList.mid_from arguments (spawn_idx + 1))
                neovimArgs
  else if negb (positionalMarker =? -1) then
    mkPartition (QList.mid arguments 0 positionalMarker)
                []
                (neovimArgs ++ QList.mid_from arguments (positionalMarker + 1))
  else
    mkPartition arguments [] neovimArgs.

(** ** What a run does

    [main] prints warnings and the usage text, may leave through [::exit],
    and opens one connector.  A computation yields the events it caused, in
    order, and how it ended. *)

Inductive Connector :=
| FromStdinOut                                        (* NeovimConnector::fromStdinOut() *)
| ConnectToNeovim (server : string)                   (* NeovimConnector::connectToNeovim(server) *)
| Spawn (params : list string) (exe : string).        (* NeovimConnector::spawn(params, exe) *)

Inductive event :=
| Warning (msg : string)     (* qWarning() << msg *)
| ErrorMessage               (* the parser's error text, printed by [process] *)
| HelpText                   (* the usage text, printed by [showHelp] *)
| Open (c : Connector).      (* a connector is created *)

Inductive result (A : Type) :=
| Ret (a : A)                (* the statement sequence goes on *)
| Exit (code : Z)            (* [::exit(code)] *)
| Abort.                     (* a failed Qt assertion *)

Arguments Ret {A} a.
Arguments Exit {A} code.
Arguments Abort {A}.

Definition M (A : Type) : Type := (list event * result A)%type.

Definition ret {A} (a : A) : M A := ([], Ret a).

Definition bind {A B} (m : M A) (k : A -> M B) : M B :=
  match m with
  | (tr, Ret a) => let (tr', r) := k a in (tr ++ tr', r)
  | (tr, Exit code) => (tr, Exit code)
  | (tr, Abort) => (tr, Abort)
  end.

Notation "x <- m ;; k" := (bind m (fun x => k))
  (at level 61, m at next level, right associativity).
Notation "m ;; k" := (bind m (fun _ => k))
  (at level 61, right associativity).

Definition emit (e : event) : M unit := ([e], Ret tt).

Definition qWarning (msg : string) : M unit := emit (Warning msg).

(** [when c m]: the statement [if (c) { m }]. *)
Definition when (c : bool) (m : M unit) : M unit :=
  if c then m else ret tt.

(** ** Qt's command line parser *)

Module QCommandLineParser.

Record QCommandLineOption := mkOption {
  names         : list string;
  valueName     : string;       (* empty: the option takes no value *)
  defaultValues : list string
}.

(** [commandLineOptionList] after the [addOption] and [addHelpOption]
    calls of [main] (lines 82-100), in the order of the calls.
    [addHelpOption] registers the names [h] and [help]. *)
Definition commandLineOptionList : list QCommandLineOption :=
  [ mkOption ["nvim"] "nvim_path" ["nvim"];
    mkOption ["geometry"] "geometry" [];
    mkOption ["maximized"] "" [];
    mkOption ["fullscreen"] "" [];
    mkOption ["h"; "help"] "" [];
    mkOption ["embed"] "" [];
    mkOption ["server"] "addr" [];
    mkOption ["spawn"] "" [] ].

Definition contains (l : list string) (s : string) : bool :=
  existsb (String.eqb s) l.

(** [nameHash]: from an option name to the option's offset in the list. *)
Fixpoint nameHash_find (opts : list QCommandLineOption) (offset : nat)
         (name : string) : option nat :=
  match opts with
  | [] => None
  | o :: rest =>
      if contains (names o) name then Some offset
      else nameHash_find rest (S offset) name
  end.

Definition nameHash (name : string) : option nat :=
  nameHash_find commandLineOptionList 0%nat name.

Definition optionAt (offset : nat) : QCommandLineOption :=
  nth offset commandLineOptionList (mkOption [] "" []).

Definition withValue (offset : nat) : bool :=
  negb (String.eqb (valueName (optionAt offset)) "").

(** The parser's private state after [parse]. *)
Record Parser := mkParser {
  optionNames            : list string;          (* names found, in order *)
  optionValuesHash       : list (nat * string);  (* (offset, value), in order *)
  positionalArgumentList : list string;
  error                  : bool                  (* [parse] returns [!error] *)
}.

Definition initial : Parser := mkParser [] [] [] false.

Definition addPositional (argument : string) (p : Parser) : Parser :=
  mkParser (optionNames p) (optionValuesHash p)
           (positionalArgumentList p ++ [argument]) (error p).

Definition addValue (offset : nat) (v : string) (p : Parser) : Parser :=
  mkParser (optionNames p) (optionValuesHash p ++ [(offset, v)])
           (positionalArgumentList p) (error p).

Definition setError (p : Parser) : Parser :=
  mkParser (optionNames p) (optionValuesHash p)
           (positionalArgumentList p) true.

(** [registerFoundOption]: a known name is appended to [optionNames]. *)
Definition registerFoundOption (optionName : string) (p : Parser)
  : bool * Parser :=
  match nameHash optionName with
  | Some _ =>
      (true, mkParser (optionNames p ++ [optionName]) (optionValuesHash p)
                      (positionalArgumentList p) (error p))
  | None => (false, p)
  end.

Definition assignPos (argument : string) : option nat :=
  String.index 0 "=" argument.

(** [s.mid(n)]: the string from position [n] on. *)
Definition from (n : nat) (s : string) : string :=
  String.substring n (String.length s - n) s.

(** [s.section('=', 0, 0)]: the text before the first [=]. *)
Definition beforeAssign (s : string) : string :=
  match assignPos s with
  | Some i => String.substring 0 i s
  | None => s
  end.

(** [parseOptionValue].  [next] is the argument after the current one, if
    any.  The result is: success, whether the iterator moved on to [next]
    (or to the end), and the state. *)
Definition parseOptionValue (optionName argument : string)
           (next : option string) (p : Parser) : bool * bool * Parser :=
  match nameHash optionName with
  | None => (true, false, p)
  | Some offset =>
      if withValue offset then
        match assignPos argument with
        | None =>
            match next with
            | None => (false, true, p)                 (* Missing value *)
            | Some v => (true, true, addValue offset v p)
            end
        | Some i => (true, false, addValue offset (from (S i) argument) p)
        end
      else
        match assignPos argument with
        | Some _ => (false, false, p)                  (* Unexpected value *)
        | None => (true, false, p)
        end
  end.

(** The loop over the characters of a [-abc] argument
    ([ParseAsCompactedShortOptions], the default).  [chars] are the
    characters not yet seen.  The result is: the last option name,
    [valueFound], [error], and the state. *)
Fixpoint compactedShortOptions (chars : string) (optionName : string)
         (err : bool) (p : Parser) : string * bool * bool * Parser :=
  match chars with
  | EmptyString => (optionName, false, err, p)
  | String c rest =>
      let optionName := String c EmptyString in
      match registerFoundOption optionName p, nameHash optionName with
      | (true, p1), Some offset =>
          if withValue offset then
            match rest with
            | EmptyString => (optionName, false, err, p1)
            | String c' rest' =>
                let v := if Ascii.eqb c' "=" then rest' else rest in
                (optionName, true, err, addValue offset v p1)
            end
          else
            match rest with
            | String c' _ =>
                if Ascii.eqb c' "=" then (optionName, false, err, p1)
                else compactedShortOptions rest optionName err p1
            | EmptyString => compactedShortOptions rest optionName err p1
            end
      | _, _ => compactedShortOptions rest optionName true p
      end
  end.

(** The loop of [QCommandLineParserPrivate::parse] over the arguments
    after the executable name. *)
Fixpoint parse_loop (args : list string) (forcePositional : bool)
         (p : Parser) : Parser :=
  match args with
  | [] => p
  | argument :: rest =>
      if forcePositional then
        parse_loop rest true (addPositional argument p)
      else if String.prefix "--" argument then
        if (2 <? String.length argument)%nat then
          let optionName := beforeAssign (from 2 argument) in
          match registerFoundOption optionName p with
          | (true, p1) =>
              let '(ok, moved, p2) :=
                parseOptionValue optionName argument (hd_error rest) p1 in
              let p3 := if ok then p2 else setError p2 in
              if moved then
                match rest with
                | [] => p3
                | _ :: rest' => parse_loop rest' false p3
                end
              else parse_loop rest false p3
          | (false, p1) => parse_loop rest false (setError p1)
          end
        else parse_loop rest true p
      else if String.prefix "-" argument then
        if (String.length argument =? 1)%nat then
          parse_loop rest false (addPositional argument p)
        else
          let '(optionName, valueFound, err, p1) :=
            compactedShortOptions (from 1 argument) "" (error p) p in
          let p1 := if err then setError p1 else p1 in
          if valueFound then parse_loop rest false p1
          else
            let '(ok, moved, p2) :=
              parseOptionValue optionName argument (hd_error rest) p1 in
            let p3 := if ok then p2 else setError p2 in
            if moved then
              match rest with
              | [] => p3
              | _ :: rest' => parse_loop rest' false p3
              end
            else parse_loop rest false p3
      else parse_loop rest false (addPositional argument p)
  end.

(** [QCommandLineParserPrivate::parse]: an empty list is refused, the
    executable name is skipped. *)
Definition parse (args : list string) : option Parser :=
  match args with
  | [] => None
  | _ :: rest => Some (parse_loop rest false initial)
  end.

Definition aliases (name : string) : list string :=
  match nameHash name with
  | Some offset => names (optionAt offset)
  | None => []
  end.

(** [isSet(name)]: [name] or one of its aliases was found. *)
Definition isSet (p : Parser) (name : string) : bool :=
  contains (optionNames p) name
  || existsb (fun optionName => contains (aliases name) optionName)
             (optionNames p).

(** [values(name)]: the values found, or the option's defaults. *)
Definition values (p : Parser) (optionName : string) : list string :=
  match nameHash optionName with
  | Some offset =>
      let vs := map snd (filter (fun ov => Nat.eqb (fst ov) offset)
                                (optionValuesHash p)) in
      if QList.isEmpty vs then defaultValues (optionAt offset) else vs
  | None => []
  end.

(** [value(name)]: the last of [values(name)], or the empty string. *)
Definition value (p : Parser) (optionName : string) : string :=
  last (values p optionName) "".

Definition positionalArguments (p : Parser) : list string :=
  positionalArgumentList p.

(** [showHelp()] prints the usage text and calls [::exit(0)]. *)
Definition showHelp {A} : M A := ([HelpText], Exit 0).

(** [process(args)]: a parse error is printed and ends the run with
    [EXIT_FAILURE]; the help option, which [addHelpOption] registered,
    shows the usage text at once. *)
Definition process (args : list string) : M Parser :=
  match parse args with
  | None =>
      qWarning "QCommandLineParser: argument list cannot be empty, it should contain at least the executable name" ;;
      emit ErrorMessage ;; ([], Exit 1)
  | Some p =>
      if error p then emit ErrorMessage ;; ([], Exit 1)
      else if isSet p "help" then showHelp
      else ret p
  end.

End QCommandLineParser.

(** ** Files and directories *)

(** What the build fixes: the platform, and the macro
    [NVIM_QT_RUNTIME_PATH] when the build defines it. *)
Record Build := mkBuild {
  Q_OS_MAC : bool;
  NVIM_QT_RUNTIME_PATH : option string
}.

(** What the run finds: the value of the environment variable
    [NVIM_QT_RUNTIME_PATH] when [main] reads it at line 167 (empty when
    unset; on macOS the login environment has been loaded by then), the
    directory of [QFileInfo(QCoreApplication::applicationDirPath()).dir()]
    (an absolute path: the directory above the one of the executable), and
    which paths are existing directories. *)
Record Environment := mkEnvironment {
  qgetenv_NVIM_QT_RUNTIME_PATH : string;
  applicationDirPath_dir : string;
  isDirectory : string -> bool
}.

Module QFileInfo.

(** [QFileInfo(path).isDir()]; no file name, no directory. *)
Definition isDir (env : Environment) (path : string) : bool :=
  if String.eqb path "" then false else isDirectory env path.

End QFileInfo.

Module QDir.

Fixpoint endsWithSlash (s : string) : bool :=
  match s with
  | EmptyString => false
  | String c EmptyString => Ascii.eqb c "/"
  | String _ rest => endsWithSlash rest
  end.

(** The path [cd] tries: [dirName] below the directory [d]. *)
Definition filePath (d dirName : string) : string :=
  (if endsWithSlash d then d else d ++ "/") ++ dirName.

(** [d.cd(dirName)] for a plain name below an absolute path.  Qt: "Returns
    true if the new directory exists; otherwise returns false.  Note that
    the logical cd() operation is not performed if the new directory does
    not exist."  [main] drops the boolean, so only the directory is kept
    here. *)
Definition cd (env : Environment) (d dirName : string) : string :=
  let newPath := filePath d dirName in
  if isDirectory env newPath then newPath else d.

(** [d.exists()]. *)
Definition exists_ (env : Environment) (d : string) : bool :=
  isDirectory env d.

End QDir.

(** ** [main] *)

(** [QString("set rtp+=%1").arg(dir)]. *)
Definition set_rtp (dir : string) : string := "set rtp+=" ++ dir.

(** The two [insert] calls that each branch of lines 167-199 makes. *)
Definition insert_rtp (neovimArgs : list string) (dir : string)
  : list string :=
  QList.insert (QList.insert neovimArgs 0 "--cmd") 1 (set_rtp dir).

(** Lines 180-199: the runtime directory relative to the executable. *)
Definition relativeRuntime (build : Build) (env : Environment)
           (neovimArgs : list string) : list string :=
  let d := applicationDirPath_dir env in
  let d :=
    if Q_OS_MAC build then
      let d := QDir.cd env d "Resources" in
      QDir.cd env d "runtime"
    else
      let d := QDir.cd env d "share" in
      let d := QDir.cd env d "nvim-qt" in
      QDir.cd env d "runtime" in
  if QDir.exists_ env d then insert_rtp neovimArgs d else neovimArgs.

(** Lines 167-199: the runtime path is put in front of [neovimArgs].

    With the macro defined the three lookups are one
    [if / else if / else] chain.  Without it the preprocessor removes lines
    174-178, and the [else] at the end of line 178 with them: the block of
    lines 180-199 is then a statement of its own, which runs after the [if]
    of line 168 whatever that one did. *)
Definition runtimePath (build : Build) (env : Environment)
           (neovimArgs : list string) : list string :=
  let path := qgetenv_NVIM_QT_RUNTIME_PATH env in
  match NVIM_QT_RUNTIME_PATH build with
  | Some macro =>
      if QFileInfo.isDir env path then insert_rtp neovimArgs path
      else if QFileInfo.isDir env macro then insert_rtp neovimArgs macro
      else relativeRuntime build env neovimArgs
  | None =>
      let neovimArgs :=
        if QFileInfo.isDir env path then insert_rtp neovimArgs path
        else neovimArgs in
      relativeRuntime build env neovimArgs
  end.

Definition connect (c : Connector) : M Connector :=
  emit (Open c) ;; ret c.

Definition exclusive_msg : string :=
  "Options --server, --spawn and --embed are mutually exclusive" ++ String "010" "".
Definition embed_msg : string :=
  "--embed does not accept positional arguments" ++ String "010" "".
Definition server_msg : string :=
  "--server does not accept positional arguments" ++ String "010" "".
Definition spawn_msg : string :=
  "--spawn requires at least one positional argument".

Import QCommandLineParser.

(** [parser.isSet("server") + parser.isSet("embed") + parser.isSet("spawn")]. *)
Definition exclusive (parser : Parser) : Z :=
  Z.b2z (isSet parser "server") + Z.b2z (isSet parser "embed")
  + Z.b2z (isSet parser "spawn").

(** Lines 143-204: the connector is chosen. *)
Definition establish (build : Build) (env : Environment)
           (positionalMarker : Z) (pr : PartitionResult) (parser : Parser)
  : M Connector :=
  if isSet parser "embed" then
    when (negb (QList.isEmpty (positionalArguments parser))
          || negb (positionalMarker =? -1))
         (qWarning embed_msg ;; showHelp) ;;
    connect FromStdinOut
  else if isSet parser "server" then
    when (negb (QList.isEmpty (positionalArguments parser))
          || negb (positionalMarker =? -1))
         (qWarning server_msg ;; showHelp) ;;
    let server := value parser "server" in
    connect (ConnectToNeovim server)
  else if isSet parser "spawn" then
    when (QList.isEmpty (spawnArgs pr))
         (qWarning spawn_msg ;; showHelp) ;;
    match QList.at_ (spawnArgs pr) 0 with
    | Some exe => connect (Spawn (QList.mid_from (spawnArgs pr) 1) exe)
    | None => ([], Abort)
    end
  else
    let neovimArgs := runtimePath build env (neovimArgs pr) in
    let neovimArgs := neovimArgs ++ positionalArguments parser in
    connect (Spawn neovimArgs (value parser "nvim")).

(** Lines 106-204 of [main], up to the connector [c]. *)
Definition main (build : Build) (env : Environment)
           (arguments : list string) : M Connector :=
  let positionalMarker := QList.indexOf arguments "--" in
  let pr := partition arguments in
  parser <- process (launcherArgs pr) ;;
  when (isSet parser "help") showHelp ;;
  when (1 <? exclusive parser) (qWarning exclusive_msg ;; showHelp) ;;
  establish build env positionalMarker pr parser.

(** A run that ends in a configuration error: one warning, the usage text,
    and [::exit] before any connector is created. *)
Definition configurationError (msg : string) : M Connector :=
  ([Warning msg; HelpText], Exit 0).

(** The warning of the first check that fires, for a run in which the embed
    or the server flag is set. *)
Definition positional_warning (parser : Parser) : string :=
  if 1 <? exclusive parser then exclusive_msg
  else if isSet parser "embed" then embed_msg
  else server_msg.

(** Every value the parser holds belongs to an option whose name it has
    found. *)
Definition values_named (p : Parser) : Prop :=
  forall offset v, In (offset, v) (optionValuesHash p) ->
    exists name, In name (optionNames p) /\ nameHash name = Some offset.

(** [name] is no option, or the parser has found it. *)
Definition registered (name : string) (p : Parser) : Prop :=
  nameHash name = None \/ In name (optionNames p).

(** The tokens that add the directories [dirs] to the runtime path, one
    [--cmd] directive each. *)
Definition rtp_tokens (dirs : list string) : list string :=
  flat_map (fun dir => ["--cmd"; set_rtp dir]) dirs.

(** ** The fallback chain as the specification words it

    The candidates in order: the environment override, the compile-time
    default when the build has one, and the directory below the one above
    the executable's.  Used to compare [runtimePath] with. *)

Definition relativeCandidate (build : Build) (env : Environment) : string :=
  let d := applicationDirPath_dir env in
  if Q_OS_MAC build then
    QDir.filePath (QDir.filePath d "Resources") "runtime"
  else
    QDir.filePath (QDir.filePath (QDir.filePath d "share") "nvim-qt") "runtime".

Definition candidates (build : Build) (env : Environment) : list string :=
  qgetenv_NVIM_QT_RUNTIME_PATH env
  :: match NVIM_QT_RUNTIME_PATH build with
     | Some macro => [macro]
     | None => []
     end
  ++ [relativeCandidate build env].

Definition firstExistingCandidate (build : Build) (env : Environment)
  : option string :=
  find (QFileInfo.isDir env) (candidates build env).

(** ** Sample builds and environments *)

Definition directories (dirs : list string) : string -> bool :=
  fun path => existsb (String.eqb path) dirs.

Definition linuxBuild : Build := mkBuild false None.

Definition packagedBuild : Build := mkBuild false (Some "/usr/share/nvim-qt/runtime").

(** A bare install under [/opt/app/bin]: no runtime directory anywhere. *)
Definition bareEnv : Environment :=
  mkEnvironment "" "/opt/app" (directories ["/"; "/opt"; "/opt/app"; "/opt/app/bin"]).

(** An override directory, next to an installed default. *)
Definition overrideEnv : Environment :=
  mkEnvironment "/home/u/rt" "/usr"
    (directories ["/"; "/usr"; "/usr/bin"; "/usr/share"; "/usr/share/nvim-qt";
                  "/usr/share/nvim-qt/runtime"; "/home"; "/home/u"; "/home/u/rt"]).

(** A default under [/usr], and a second copy below the executable. *)
Definition installedEnv : Environment :=
  mkEnvironment "" "/opt/app"
    (directories ["/"; "/usr"; "/usr/share"; "/usr/share/nvim-qt";
                  "/usr/share/nvim-qt/runtime"; "/opt"; "/opt/app";
                  "/opt/app/bin"; "/opt/app/share"; "/opt/app/share/nvim-qt";
                  "/opt/app/share/nvim-qt/runtime"]).

(** ** [createApplication] (main.cpp, lines 58-71) *)

Inductive Application :=
| CoreApplication    (* new QCoreApplication(argc, argv): no display needed *)
| GuiApplication.    (* new NeovimQt::App(argc, argv) *)

(** [!qstrcmp(argv[i], "--") || !qstrcmp(argv[i], "--spawn")]. *)
Definition isMarker (arg : string) : bool :=
  String.eqb arg "--" || String.eqb arg "--spawn".

(** [!qstrcmp(argv[i], "--help") || !qstrcmp(argv[i], "-h")]. *)
Definition isHelp (arg : string) : bool :=
  String.eqb arg "--help" || String.eqb arg "-h".

(** The [for] loop of lines 61-68, from [argv[0]] on. *)
Fixpoint createApplication_loop (argv : list string) : Application :=
  match argv with
  | [] => GuiApplication
  | arg :: rest =>
      if isMarker arg then GuiApplication
      else if isHelp arg then CoreApplication
      else createApplication_loop rest
  end.

(** The loop is compiled in on platforms other than Windows and macOS.
    [argv] is the vector as [main] goes on to see it in [app->arguments()]:
    it holds none of the options that Qt takes out for itself. *)
Definition createApplication (Q_OS_WIN : bool) (build : Build)
           (argv : list string) : Application :=
  if negb Q_OS_WIN && negb (Q_OS_MAC build) then createApplication_loop argv
  else GuiApplication.

(** ** The login environment (main.cpp, lines 28-56, macOS) *)

Module QByteArray.

(** [split(sep)]: the pieces between the separators, empty ones included;
    always at least one piece. *)
Fixpoint split (sep : ascii) (s : string) : list string :=
  match s with
  | EmptyString => [EmptyString]
  | String c rest =>
      if Ascii.eqb c sep then EmptyString :: split sep rest
      else
        match split sep rest with
        | piece :: pieces => String c piece :: pieces
        | [] => [String c EmptyString]
        end
  end.

(** [indexOf(c)]: [None] stands for [-1]. *)
Definition indexOf (c : ascii) (s : string) : option nat :=
  String.index 0 (String c EmptyString) s.

End QByteArray.

(** The environment of the process: the bindings made, the latest first. *)
Definition ProcessEnvironment : Type := list (string * string).

Definition qputenv (name value : string) (penv : ProcessEnvironment)
  : ProcessEnvironment :=
  (name, value) :: penv.

(** [qgetenv(name)]: empty when the variable is not set. *)
Fixpoint qgetenv (penv : ProcessEnvironment) (name : string) : string :=
  match penv with
  | [] => ""
  | (n, v) :: rest => if String.eqb n name then v else qgetenv rest name
  end.

(** The body of the [foreach] of lines 39-45 for one line of output. *)
Definition putItem (penv : ProcessEnvironment) (item : string)
  : ProcessEnvironment :=
  match QByteArray.indexOf "=" item with
  | Some (S i) =>
      qputenv (String.substring 0 (S i) item) (from (S (S i)) item) penv
  | _ => penv
  end.

(** [shell path] is what [path -l -c env -i] wrote to its standard output,
    or [None] when [waitForFinished] gave up. *)
Definition getLoginEnvironment (shell : string -> option string)
           (path : string) (penv : ProcessEnvironment)
  : bool * ProcessEnvironment :=
  match shell path with
  | None => (false, penv)
  | Some out => (true, fold_left putItem (QByteArray.split "010" out) penv)
  end.

Definition loadLoginEnvironmen (shell : string -> option string)
           (penv : ProcessEnvironment) : ProcessEnvironment :=
  let shellPath := qgetenv penv "SHELL" in
  let (ok, penv1) := getLoginEnvironment shell shellPath penv in
  if ok then penv1
  else snd (getLoginEnvironment shell "/bin/bash" penv1).

(** Lines 106-204 with the environment read where [main] reads it: on
    macOS the login environment is loaded at line 140, after the checks on
    the flags and before the connector is chosen. *)
Definition main_login (build : Build) (shell : string -> option string)
           (penv : ProcessEnvironment) (dir : string)
           (isDirectory : string -> bool) (arguments : list string)
  : M Connector :=
  let positionalMarker := QList.indexOf arguments "--" in
  let pr := partition arguments in
  parser <- process (launcherArgs pr) ;;
  when (isSet parser "help") showHelp ;;
  when (1 <? exclusive parser) (qWarning exclusive_msg ;; showHelp) ;;
  let penv := if Q_OS_MAC build then loadLoginEnvironmen shell penv
              else penv in
  let env := mkEnvironment (qgetenv penv "NVIM_QT_RUNTIME_PATH") dir
                           isDirectory in
  establish build env positionalMarker pr parser.

(** What [env] prints for the bindings: one line [name=value] each. *)
Fixpoint printenv (bindings : list (string * string)) : string :=
  match bindings with
  | [] => ""
  | (name, value) :: rest =>
      (name ++ "=" ++ value ++ String "010" (printenv rest))%string
  end.

(** A binding [env] can print on one line and a reader can take apart. *)
Definition printable (binding : string * string) : Prop :=
  fst binding <> ""
  /\ ~ In "="%char (list_ascii_of_string (fst binding))
  /\ ~ In "010"%char (list_ascii_of_string (fst binding))
  /\ ~ In "010"%char (list_ascii_of_string (snd binding)).

(** ** The log file (main.cpp, lines 19-26) *)

(** The files a run can append to, and what they hold. *)
Record Files := mkFiles {
  canAppend : string -> bool;     (* [logFile.open(Append | Text)] succeeds *)
  content   : string -> string
}.

(** [logger(type, ctx, msg)]: the type and the context are not looked at.
    The content is what is streamed to the file, before the translation of
    line ends that text mode does on Windows. *)
Definition logger (penv : ProcessEnvironment) (files : Files) (msg : string)
  : Files :=
  let logFile := qgetenv penv "NVIM_QT_LOG" in
  if canAppend files logFile then
    mkFiles (canAppend files)
            (fun path => if String.eqb path logFile
                         then (content files path ++ msg ++ String "010" "")%string
                         else content files path)
  else files.

(** ** Arguments by their shape *)

(** A file name as the parser sees it: no leading dash, or the dash alone. *)
Definition fileArgument (arg : string) : bool :=
  negb (String.prefix "-" arg) || String.eqb arg "-".

(** * Properties *)

(** ** Lists *)

Section QListFacts.

Import QList.

Lemma indexOf_from_first (pre post : list string) (v : string) (i : Z) :
  ~ In v pre ->
  indexOf_from (pre ++ v :: post) v i = i + Z.of_nat (List.length pre).
Proof.
  revert i. induction pre as [|x pre IH]; intros i Hnot; simpl.
  - rewrite String.eqb_refl. lia.
  - destruct (String.eqb_spec x v) as [->|Hne].
    + exfalso. apply Hnot. now left.
    + rewrite IH by (intro; apply Hnot; now right). lia.
Qed.

Lemma indexOf_from_absent (l : list string) (v : string) (i : Z) :
  ~ In v l -> indexOf_from l v i = -1.
Proof.
  revert i. induction l as [|x l IH]; intros i Hnot; simpl; [reflexivity|].
  destruct (String.eqb_spec x v) as [->|Hne].
  - exfalso. apply Hnot. now left.
  - apply IH. intro. apply Hnot. now right.
Qed.

(** A token that is not in [pre] and is not [x] is found behind [x], if
    at all. *)
Lemma indexOf_from_behind (pre post : list string) (x v : string) (i : Z) :
  ~ In v pre -> x <> v ->
  indexOf_from (pre ++ x :: post) v i = -1
  \/ i + Z.of_nat (List.length pre) < indexOf_from (pre ++ x :: post) v i.
Proof.
  revert i. induction pre as [|y pre IH]; intros i Hnot Hne; simpl.
  - destruct (String.eqb_spec x v) as [E|_]; [contradiction|].
    clear Hnot. revert i.
    induction post as [|z post IHp]; intros i; simpl; [now left|].
    destruct (String.eqb z v); [right; lia|].
    destruct (IHp (i + 1)) as [H|H]; [now left | right; lia].
  - destruct (String.eqb_spec y v) as [->|_].
    + exfalso. apply Hnot. now left.
    + destruct (IH (i + 1)) as [H|H]; try assumption.
      * intro. apply Hnot. now right.
      * now left.
      * right. lia.
Qed.

Lemma mid_prefix (pre post : list string) :
  mid (pre ++ post) 0 (Z.of_nat (List.length pre)) = pre.
Proof.
  unfold mid. rewrite length_app, Nat2Z.inj_add.
  replace (Z.of_nat (List.length pre) + Z.of_nat (List.length post) <? 0) with false
    by (symmetry; apply Z.ltb_ge; lia).
  rewrite Z.ltb_irrefl.
  replace (Z.of_nat (List.length pre) <? 0) with false
    by (symmetry; apply Z.ltb_ge; lia).
  replace (Z.of_nat (List.length pre) + Z.of_nat (List.length post) - 0
           <? Z.of_nat (List.length pre)) with false
    by (symmetry; apply Z.ltb_ge; lia).
  simpl. rewrite Nat2Z.id.
  rewrite firstn_app, firstn_all, Nat.sub_diag. simpl. apply app_nil_r.
Qed.

Lemma mid_from_suffix (pre post : list string) :
  mid_from (pre ++ post) (Z.of_nat (List.length pre)) = post.
Proof.
  unfold mid_from, mid. rewrite length_app, Nat2Z.inj_add.
  replace (Z.of_nat (List.length pre) + Z.of_nat (List.length post)
           <? Z.of_nat (List.length pre)) with false
    by (symmetry; apply Z.ltb_ge; lia).
  replace (Z.of_nat (List.length pre) <? 0) with false
    by (symmetry; apply Z.ltb_ge; lia).
  simpl.
  replace (Z.of_nat (List.length pre) + Z.of_nat (List.length post)
           - Z.of_nat (List.length pre)) with (Z.of_nat (List.length post)) by lia.
  rewrite !Nat2Z.id.
  rewrite skipn_app, skipn_all, Nat.sub_diag. simpl. apply firstn_all.
Qed.

End QListFacts.

(** ** The split *)

Lemma partition_at_spawn (pre post : list string) :
  ~ In "--spawn" pre -> ~ In "--" pre ->
  partition (pre ++ "--spawn" :: post)
  = mkPartition (pre ++ ["--spawn"]) post ["--cmd"; "set termguicolors"].
Proof.
  intros Hs Hm. unfold partition, QList.indexOf.
  rewrite (indexOf_from_first pre post "--spawn" 0 Hs).
  set (n := Z.of_nat (List.length pre)).
  assert (Hn : 0 <= n) by (subst n; lia).
  replace (0 + n =? -1) with false by (symmetry; apply Z.eqb_neq; lia).
  assert (Hc : (0 + n <? QList.indexOf_from (pre ++ "--spawn" :: post) "--" 0)
               || (QList.indexOf_from (pre ++ "--spawn" :: post) "--" 0 =? -1)
               = true).
  { destruct (indexOf_from_behind pre post "--spawn" "--" 0 Hm) as [H|H];
      [discriminate| |].
    - rewrite H. apply orb_true_r.
    - apply orb_true_iff. left. apply Z.ltb_lt. exact H. }
  rewrite Hc. simpl negb. simpl andb. cbv iota.
  f_equal.
  - replace (pre ++ "--spawn" :: post) with ((pre ++ ["--spawn"]) ++ post)
      by (rewrite <- app_assoc; reflexivity).
    replace (0 + n + 1) with (Z.of_nat (List.length (pre ++ ["--spawn"])))
      by (rewrite length_app; simpl; subst n; lia).
    apply mid_prefix.
  - replace (pre ++ "--spawn" :: post) with ((pre ++ ["--spawn"]) ++ post)
      by (rewrite <- app_assoc; reflexivity).
    replace (0 + n + 1) with (Z.of_nat (List.length (pre ++ ["--spawn"])))
      by (rewrite length_app; simpl; subst n; lia).
    apply mid_from_suffix.
Qed.

(** C1.  When the first [--spawn] comes before any [--] (the tokens [pre] in
    front of it hold neither), the launcher gets every token up to and
    including that [--spawn], [spawnArgs] is everything behind it as it
    stands, a later [--] included, and [neovimArgs] is the true-colour
    directive alone. *)
Theorem C1_spawn_marker_first (pre post : list string) :
  ~ In "--spawn" pre -> ~ In "--" pre ->
  let pr := partition (pre ++ "--spawn" :: post) in
  launcherArgs pr = pre ++ ["--spawn"]
  /\ spawnArgs pr = post
  /\ neovimArgs pr = ["--cmd"; "set termguicolors"].
Proof.
  intros Hs Hm pr. subst pr. rewrite (partition_at_spawn pre post Hs Hm).
  simpl. repeat split.
Qed.

Lemma C1_witness :
  let pr := partition (["nvim-qt"; "--maximized"]
                       ++ "--spawn" :: ["nvim"; "-u"; "--"; "file"]) in
  launcherArgs pr = ["nvim-qt"; "--maximized"] ++ ["--spawn"]
  /\ spawnArgs pr = ["nvim"; "-u"; "--"; "file"]
  /\ neovimArgs pr = ["--cmd"; "set termguicolors"].
Proof.
  apply (C1_spawn_marker_first ["nvim-qt"; "--maximized"]
                               ["nvim"; "-u"; "--"; "file"]).
  - simpl. intros [H|[H|[]]]; discriminate.
  - simpl. intros [H|[H|[]]]; discriminate.
Defined.

(** C3.  When the first [--] has no [--spawn] in front of it, the launcher
    gets the tokens before that [--], the tokens behind it follow the
    directive in [neovimArgs], and [spawnArgs] is empty. *)
Theorem C3_positional_marker_first (pre post : list string) :
  ~ In "--" pre -> ~ In "--spawn" pre ->
  let pr := partition (pre ++ "--" :: post) in
  launcherArgs pr = pre
  /\ neovimArgs pr = ["--cmd"; "set termguicolors"] ++ post
  /\ spawnArgs pr = [].
Proof.
  intros Hm Hs pr. subst pr. unfold partition, QList.indexOf.
  rewrite (indexOf_from_first pre post "--" 0 Hm).
  set (n := Z.of_nat (List.length pre)).
  assert (Hn : 0 <= n) by (subst n; lia).
  assert (Hc : negb (QList.indexOf_from (pre ++ "--" :: post) "--spawn" 0 =? -1)
               && ((QList.indexOf_from (pre ++ "--" :: post) "--spawn" 0
                    <? 0 + n) || (0 + n =? -1)) = false).
  { destruct (indexOf_from_behind pre post "--" "--spawn" 0 Hs) as [H|H];
      [discriminate| |].
    - rewrite H. reflexivity.
    - apply andb_false_iff. right. apply orb_false_iff. split.
      + apply Z.ltb_ge. lia.
      + apply Z.eqb_neq. lia. }
  assert (Hpost : QList.mid_from (pre ++ "--" :: post) (0 + n + 1) = post).
  { replace (pre ++ "--" :: post) with ((pre ++ ["--"]) ++ post)
      by (rewrite <- app_assoc; reflexivity).
    replace (0 + n + 1) with (Z.of_nat (List.length (pre ++ ["--"])))
      by (rewrite length_app; simpl; subst n; lia).
    apply mid_from_suffix. }
  assert (Hpre : QList.mid (pre ++ "--" :: post) 0 (0 + n) = pre).
  { replace (0 + n) with n by lia. apply mid_prefix. }
  rewrite Hc, Hpost, Hpre.
  replace (0 + n =? -1) with false by (symmetry; apply Z.eqb_neq; lia).
  simpl. repeat split.
Qed.

Lemma C3_witness :
  let pr := partition (["nvim-qt"; "a.txt"] ++ "--" :: ["-u"; "NONE"; "--spawn"]) in
  launcherArgs pr = ["nvim-qt"; "a.txt"]
  /\ neovimArgs pr = ["--cmd"; "set termguicolors"] ++ ["-u"; "NONE"; "--spawn"]
  /\ spawnArgs pr = [].
Proof.
  apply (C3_positional_marker_first ["nvim-qt"; "a.txt"]
                                    ["-u"; "NONE"; "--spawn"]).
  - simpl. intros [H|[H|[]]]; discriminate.
  - simpl. intros [H|[H|[]]]; discriminate.
Defined.

(** C4.  With neither [--spawn] nor [--] among the arguments, the launcher
    gets all of them, [spawnArgs] is empty and [neovimArgs] is the
    true-colour directive alone. *)
Theorem C4_no_marker (raw : list string) :
  ~ In "--spawn" raw -> ~ In "--" raw ->
  partition raw = mkPartition raw [] ["--cmd"; "set termguicolors"].
Proof.
  intros Hs Hm. unfold partition, QList.indexOf.
  rewrite (indexOf_from_absent raw "--spawn" 0 Hs).
  rewrite (indexOf_from_absent raw "--" 0 Hm).
  reflexivity.
Qed.

Lemma C4_witness :
  partition ["nvim-qt"; "--fullscreen"; "notes.md"]
  = mkPartition ["nvim-qt"; "--fullscreen"; "notes.md"] []
                ["--cmd"; "set termguicolors"].
Proof.
  apply (C4_no_marker ["nvim-qt"; "--fullscreen"; "notes.md"]).
  - simpl. intros [H|[H|[H|[]]]]; discriminate.
  - simpl. intros [H|[H|[H|[]]]]; discriminate.
Defined.

(** ** The run after the flags are parsed *)

Lemma bind_ret_l {A B} (a : A) (k : A -> M B) : bind (ret a) k = k a.
Proof. unfold bind, ret. destruct (k a); reflexivity. Qed.

Lemma when_false_then {B} (m : M unit) (k : M B) :
  (when false m ;; k) = k.
Proof. unfold when. apply bind_ret_l. Qed.

Lemma when_true_error (msg : string) (k : M Connector) :
  (when true (qWarning msg ;; showHelp) ;; k) = configurationError msg.
Proof. reflexivity. Qed.

(** [process] hands the parser back only when nothing was printed, no error
    was found and the help option is not set. *)
Lemma process_ret (args : list string) (parser : Parser) :
  process args = ret parser ->
  parse args = Some parser /\ error parser = false
  /\ isSet parser "help" = false.
Proof.
  unfold process. destruct (parse args) as [p|]; [|discriminate].
  destruct (error p) eqn:He; [discriminate|].
  destruct (isSet p "help") eqn:Hh; [discriminate|].
  unfold ret. intros H. injection H as <-. auto.
Qed.

Lemma main_parsed (build : Build) (env : Environment) (raw : list string)
      (parser : Parser) :
  process (launcherArgs (partition raw)) = ret parser ->
  main build env raw
  = (when (1 <? exclusive parser) (qWarning exclusive_msg ;; showHelp) ;;
     establish build env (QList.indexOf raw "--") (partition raw) parser).
Proof.
  intros H. destruct (process_ret _ _ H) as (_ & _ & Hh).
  unfold main. rewrite H, bind_ret_l, Hh. apply when_false_then.
Qed.

Lemma indexOf_from_present (l : list string) (v : string) (i : Z) :
  In v l -> i <= QList.indexOf_from l v i.
Proof.
  revert i. induction l as [|x l IH]; intros i Hin; [destruct Hin|].
  simpl. destruct (String.eqb_spec x v) as [->|Hne]; [lia|].
  destruct Hin as [->|Hin]; [contradiction|].
  specialize (IH (i + 1) Hin). lia.
Qed.

Lemma marker_present (raw : list string) :
  In "--" raw -> negb (QList.indexOf raw "--" =? -1) = true.
Proof.
  intros Hin. apply negb_true_iff, Z.eqb_neq.
  pose proof (indexOf_from_present raw "--" 0 Hin). unfold QList.indexOf. lia.
Qed.

(** Lines 130-158 with the embed or the server flag set: positional
    arguments, or a [--] marker, end the run in a configuration error. *)
Lemma positional_restriction (build : Build) (env : Environment)
      (raw : list string) (parser : Parser) :
  process (launcherArgs (partition raw)) = ret parser ->
  isSet parser "embed" = true \/ isSet parser "server" = true ->
  negb (QList.isEmpty (positionalArguments parser))
  || negb (QList.indexOf raw "--" =? -1) = true ->
  main build env raw = configurationError (positional_warning parser).
Proof.
  intros Hp Hmode Hcond. rewrite (main_parsed build env raw parser Hp).
  unfold positional_warning.
  destruct (1 <? exclusive parser); [apply when_true_error|].
  rewrite when_false_then. unfold establish.
  destruct (isSet parser "embed").
  - rewrite Hcond. apply when_true_error.
  - destruct Hmode as [Hm|Hm]; [discriminate|].
    rewrite Hm, Hcond. apply when_true_error.
Qed.

(** Whatever [process] does with them (a parse error and a help request end
    the run inside it), two mode flags among the names the parser found mean
    that the run ends in an exit and creates no connector. *)
Lemma exclusive_flags_no_connector (build : Build) (env : Environment)
      (raw : list string) (parser : Parser) :
  parse (launcherArgs (partition raw)) = Some parser ->
  1 < exclusive parser ->
  exists tr code,
    main build env raw = (tr, Exit code) /\ forall c, ~ In (Open c) tr.
Proof.
  intros Hparse Hex. apply Z.ltb_lt in Hex.
  unfold main, process. rewrite Hparse.
  destruct (error parser).
  - exists [ErrorMessage], 1. split; [reflexivity|].
    intros c [H|[]]. discriminate.
  - destruct (isSet parser "help") eqn:Hh.
    + exists [HelpText], 0. split; [reflexivity|].
      intros c [H|[]]. discriminate.
    + rewrite bind_ret_l, Hh, when_false_then, Hex.
      exists [Warning exclusive_msg; HelpText], 0. split; [reflexivity|].
      intros c [H|[H|[]]]; discriminate.
Qed.

(** C2.  When flag parsing hands back a parser in which more than one of
    [--server], [--embed] and [--spawn] is set, the run is the warning about
    mutual exclusion and the usage text, then the exit: no check of a single
    mode has run and no connector was created. *)
Theorem C2_exclusive_flags (build : Build) (env : Environment)
        (raw : list string) (parser : Parser) :
  process (launcherArgs (partition raw)) = ret parser ->
  1 < exclusive parser ->
  main build env raw = configurationError exclusive_msg.
Proof.
  intros Hp Hex. rewrite (main_parsed build env raw parser Hp).
  apply Z.ltb_lt in Hex. rewrite Hex. apply when_true_error.
Qed.

Lemma C2_witness :
  main linuxBuild bareEnv ["nvim-qt"; "--embed"; "--server"; "addr"]
  = configurationError exclusive_msg.
Proof.
  eapply C2_exclusive_flags.
  - vm_compute. reflexivity.
  - vm_compute. reflexivity.
Defined.

(** C5.  With [--embed] set, a positional argument or an argument behind
    the [--] marker ends the run in a configuration error (a warning and
    the usage text) and no connector is created; the same holds with
    [--server] set. *)
Theorem C5_no_positional_arguments (build : Build) (env : Environment)
        (raw : list string) (parser : Parser) :
  process (launcherArgs (partition raw)) = ret parser ->
  isSet parser "embed" = true \/ isSet parser "server" = true ->
  positionalArguments parser <> []
  \/ (exists pre arg post, raw = pre ++ "--" :: arg :: post) ->
  main build env raw = configurationError (positional_warning parser).
Proof.
  intros Hp Hmode Hargs. apply positional_restriction; try assumption.
  apply orb_true_iff. destruct Hargs as [Hpos|(pre & arg & post & ->)].
  - left. destruct (positionalArguments parser); [contradiction|reflexivity].
  - right. apply marker_present. apply in_or_app. right. now left.
Qed.

Lemma C5_witness :
  main linuxBuild bareEnv ["nvim-qt"; "--embed"; "a.txt"]
  = configurationError embed_msg
  /\ main linuxBuild bareEnv ["nvim-qt"; "--server"; "addr"; "--"; "-u"]
     = configurationError server_msg.
Proof.
  split.
  - eapply eq_trans.
    + eapply (C5_no_positional_arguments linuxBuild bareEnv
                ["nvim-qt"; "--embed"; "a.txt"]).
      * vm_compute. reflexivity.
      * left. vm_compute. reflexivity.
      * left. vm_compute. discriminate.
    + vm_compute. reflexivity.
  - eapply eq_trans.
    + eapply (C5_no_positional_arguments linuxBuild bareEnv
                ["nvim-qt"; "--server"; "addr"; "--"; "-u"]).
      * vm_compute. reflexivity.
      * right. vm_compute. reflexivity.
      * right. exists ["nvim-qt"; "--server"; "addr"], "-u", []. reflexivity.
    + vm_compute. reflexivity.
Defined.

(** C10.  With [--embed] or [--server] set, a [--] marker anywhere among
    the arguments ends the run in the configuration error, whether or not a
    token follows it: the check is on the marker's index alone. *)
Theorem C10_marker_alone_rejected (build : Build) (env : Environment)
        (raw : list string) (parser : Parser) :
  process (launcherArgs (partition raw)) = ret parser ->
  isSet parser "embed" = true \/ isSet parser "server" = true ->
  In "--" raw ->
  main build env raw = configurationError (positional_warning parser).
Proof.
  intros Hp Hmode Hin. apply positional_restriction; try assumption.
  apply orb_true_iff. right. apply marker_present, Hin.
Qed.

Lemma C10_witness :
  main linuxBuild bareEnv ["nvim-qt"; "--embed"; "--"]
  = configurationError embed_msg
  /\ main linuxBuild bareEnv ["nvim-qt"; "--server"; "addr"; "--"]
     = configurationError server_msg.
Proof.
  split.
  - eapply eq_trans.
    + eapply (C10_marker_alone_rejected linuxBuild bareEnv
                ["nvim-qt"; "--embed"; "--"]).
      * vm_compute. reflexivity.
      * left. vm_compute. reflexivity.
      * simpl. auto.
    + vm_compute. reflexivity.
  - eapply eq_trans.
    + eapply (C10_marker_alone_rejected linuxBuild bareEnv
                ["nvim-qt"; "--server"; "addr"; "--"]).
      * vm_compute. reflexivity.
      * right. vm_compute. reflexivity.
      * simpl. auto.
    + vm_compute. reflexivity.
Defined.

Lemma mid_from_tail (exe : string) (rest : list string) :
  QList.mid_from (exe :: rest) 1 = rest.
Proof. apply (mid_from_suffix [exe] rest). Qed.

(** C6.  With [--spawn] set and nothing behind the marker, the run ends in
    a configuration error and no process is started; in spawn mode with
    [spawnArgs] not empty, its first element is the executable and the
    others are the arguments of the process that is started. *)
Theorem C6_spawn_arguments (build : Build) (env : Environment)
        (raw : list string) (parser : Parser) :
  process (launcherArgs (partition raw)) = ret parser ->
  isSet parser "spawn" = true ->
  (spawnArgs (partition raw) = [] ->
   main build env raw
   = configurationError
       (if 1 <? exclusive parser then exclusive_msg else spawn_msg))
  /\ (forall exe rest,
        isSet parser "embed" = false -> isSet parser "server" = false ->
        spawnArgs (partition raw) = exe :: rest ->
        main build env raw = connect (Spawn rest exe)).
Proof.
  intros Hp Hs. rewrite (main_parsed build env raw parser Hp). split.
  - intros Hempty. destruct (1 <? exclusive parser) eqn:Hex;
      [apply when_true_error|].
    rewrite when_false_then. unfold establish.
    apply Z.ltb_ge in Hex. unfold exclusive in Hex. rewrite Hs in Hex.
    destruct (isSet parser "embed"); [destruct (isSet parser "server"); simpl in Hex; lia|].
    destruct (isSet parser "server"); [simpl in Hex; lia|].
    rewrite Hs, Hempty. apply when_true_error.
  - intros exe rest He Hv Hargs. unfold exclusive.
    rewrite He, Hv, Hs. simpl Z.ltb. rewrite when_false_then.
    unfold establish. rewrite He, Hv, Hs, Hargs. simpl QList.isEmpty.
    rewrite when_false_then. simpl QList.at_. rewrite mid_from_tail.
    reflexivity.
Qed.

Lemma C6_witness :
  main linuxBuild bareEnv ["nvim-qt"; "--spawn"]
  = configurationError spawn_msg
  /\ main linuxBuild bareEnv ["nvim-qt"; "--spawn"; "/bin/nvim"; "-u"; "NONE"]
     = connect (Spawn ["-u"; "NONE"] "/bin/nvim").
Proof.
  split.
  - assert (Hp : process (launcherArgs (partition ["nvim-qt"; "--spawn"]))
                 = ret (mkParser ["spawn"] [] [] false))
      by (vm_compute; reflexivity).
    exact (proj1 (C6_spawn_arguments linuxBuild bareEnv _ _ Hp eq_refl)
                 eq_refl).
  - assert (Hp : process (launcherArgs (partition
                   ["nvim-qt"; "--spawn"; "/bin/nvim"; "-u"; "NONE"]))
                 = ret (mkParser ["spawn"] [] [] false))
      by (vm_compute; reflexivity).
    exact (proj2 (C6_spawn_arguments linuxBuild bareEnv _ _ Hp eq_refl)
                 "/bin/nvim" ["-u"; "NONE"] eq_refl eq_refl eq_refl).
Defined.

(** ** The parser's values *)

Section ParserFacts.




Lemma registered_same (name : string) (p p' : Parser) :
  (forall n, In n (optionNames p) -> In n (optionNames p')) ->
  registered name p -> registered name p'.
Proof. intros Hn [H|H]; [now left | right; auto]. Qed.





Lemma values_named_setError (p : Parser) :
  values_named p -> values_named (setError p).
Proof. intros Hp. exact Hp. Qed.

Lemma values_named_addPositional (argument : string) (p : Parser) :
  values_named p -> values_named (addPositional argument p).
Proof. intros Hp. exact Hp. Qed.







End ParserFacts.

(** ** The runtime path and the default mode *)

Lemma insert_rtp_front (neovimArgs : list string) (dir : string) :
  insert_rtp neovimArgs dir = "--cmd" :: set_rtp dir :: neovimArgs.
Proof. reflexivity. Qed.

Lemma isDir_isDirectory (env : Environment) (path : string) :
  QFileInfo.isDir env path = true -> isDirectory env path = true.
Proof.
  unfold QFileInfo.isDir. destruct (String.eqb path ""); [discriminate|auto].
Qed.

(** The third lookup leaves the arguments as they are or puts the directive
    for one existing directory in front of them. *)
Lemma relativeRuntime_front (build : Build) (env : Environment)
      (neovimArgs : list string) :
  exists dirs,
    relativeRuntime build env neovimArgs = rtp_tokens dirs ++ neovimArgs
    /\ Forall (fun dir => isDirectory env dir = true) dirs.
Proof.
  unfold relativeRuntime.
  match goal with
  | |- context [QDir.exists_ env ?d] =>
      destruct (QDir.exists_ env d) eqn:Hd; [exists [d] | exists []]
  end; split; auto.
Qed.

(** [runtimePath] puts directives for existing directories in front of the
    arguments, and nothing else. *)
Lemma runtimePath_front (build : Build) (env : Environment)
      (neovimArgs : list string) :
  exists dirs,
    runtimePath build env neovimArgs = rtp_tokens dirs ++ neovimArgs
    /\ Forall (fun dir => isDirectory env dir = true) dirs.
Proof.
  unfold runtimePath.
  destruct (NVIM_QT_RUNTIME_PATH build) as [macro|].
  - destruct (QFileInfo.isDir env (qgetenv_NVIM_QT_RUNTIME_PATH env)) eqn:Hp.
    + exists [qgetenv_NVIM_QT_RUNTIME_PATH env]. split; [reflexivity|].
      constructor; [now apply isDir_isDirectory | constructor].
    + destruct (QFileInfo.isDir env macro) eqn:Hm.
      * exists [macro]. split; [reflexivity|].
        constructor; [now apply isDir_isDirectory | constructor].
      * apply relativeRuntime_front.
  - destruct (QFileInfo.isDir env (qgetenv_NVIM_QT_RUNTIME_PATH env)) eqn:Hp.
    + destruct (relativeRuntime_front build env
                  (insert_rtp neovimArgs (qgetenv_NVIM_QT_RUNTIME_PATH env)))
        as (dirs & Heq & Hdirs).
      exists (dirs ++ [qgetenv_NVIM_QT_RUNTIME_PATH env]). split.
      * rewrite Heq, insert_rtp_front. unfold rtp_tokens.
        rewrite flat_map_app, <- app_assoc. reflexivity.
      * apply Forall_app. split; [exact Hdirs|].
        constructor; [now apply isDir_isDirectory | constructor].
    + apply relativeRuntime_front.
Qed.

Lemma cd_exists (env : Environment) (d dirName : string) :
  QDir.exists_ env d = true -> QDir.exists_ env (QDir.cd env d dirName) = true.
Proof.
  unfold QDir.cd, QDir.exists_. intros Hd.
  destruct (isDirectory env (QDir.filePath d dirName)) eqn:Hnew; assumption.
Qed.

(** When the directory above the executable's exists, the third lookup
    finds a directory whatever lies below: a [cd] that fails leaves [d]
    where it was, and [d] exists. *)
Lemma relativeRuntime_injects (build : Build) (env : Environment)
      (neovimArgs : list string) :
  isDirectory env (applicationDirPath_dir env) = true ->
  exists dir, relativeRuntime build env neovimArgs
              = "--cmd" :: set_rtp dir :: neovimArgs.
Proof.
  intros Hd. unfold relativeRuntime.
  destruct (Q_OS_MAC build).
  - rewrite (cd_exists env _ "runtime" (cd_exists env _ "Resources" Hd)).
    eexists. apply insert_rtp_front.
  - rewrite (cd_exists env _ "runtime"
               (cd_exists env _ "nvim-qt" (cd_exists env _ "share" Hd))).
    eexists. apply insert_rtp_front.
Qed.

(** The third candidate is taken when it exists together with the
    directories on the way to it. *)
Lemma relativeRuntime_candidate (env : Environment)
      (neovimArgs : list string) :
  let d := applicationDirPath_dir env in
  isDirectory env (QDir.filePath d "share") = true ->
  isDirectory env (QDir.filePath (QDir.filePath d "share") "nvim-qt") = true ->
  isDirectory env (relativeCandidate linuxBuild env) = true ->
  relativeRuntime linuxBuild env neovimArgs
  = "--cmd" :: set_rtp (relativeCandidate linuxBuild env) :: neovimArgs.
Proof.
  intros d H1 H2 H3. unfold relativeRuntime, relativeCandidate in *.
  simpl Q_OS_MAC in *. cbv iota in *. fold d in H3 |- *.
  unfold QDir.cd, QDir.exists_. rewrite H1, H2, H3, H3.
  apply insert_rtp_front.
Qed.

(** In a build that defines the macro the chain is as the specification has
    it for its first two candidates: the first one that is a directory is
    used alone, whatever comes after it. *)
Lemma runtimePath_with_macro (build : Build) (env : Environment)
      (macro : string) (neovimArgs : list string) :
  NVIM_QT_RUNTIME_PATH build = Some macro ->
  (QFileInfo.isDir env (qgetenv_NVIM_QT_RUNTIME_PATH env) = true ->
   runtimePath build env neovimArgs
   = "--cmd" :: set_rtp (qgetenv_NVIM_QT_RUNTIME_PATH env) :: neovimArgs)
  /\ (QFileInfo.isDir env (qgetenv_NVIM_QT_RUNTIME_PATH env) = false ->
      QFileInfo.isDir env macro = true ->
      runtimePath build env neovimArgs
      = "--cmd" :: set_rtp macro :: neovimArgs).
Proof.
  intros Hmacro. unfold runtimePath. rewrite Hmacro. split.
  - intros ->. apply insert_rtp_front.
  - intros -> ->. apply insert_rtp_front.
Qed.

(** In a build without the macro, an override that is a directory does not
    stop the third lookup: its directive comes second when the directory
    above the executable's exists. *)
Lemma runtimePath_without_macro (build : Build) (env : Environment)
      (neovimArgs : list string) :
  NVIM_QT_RUNTIME_PATH build = None ->
  QFileInfo.isDir env (qgetenv_NVIM_QT_RUNTIME_PATH env) = true ->
  isDirectory env (applicationDirPath_dir env) = true ->
  exists dir,
    runtimePath build env neovimArgs
    = "--cmd" :: set_rtp dir
      :: "--cmd" :: set_rtp (qgetenv_NVIM_QT_RUNTIME_PATH env) :: neovimArgs.
Proof.
  intros Hmacro Hpath Hd. unfold runtimePath. rewrite Hmacro, Hpath.
  destruct (relativeRuntime_injects build env
              (insert_rtp neovimArgs (qgetenv_NVIM_QT_RUNTIME_PATH env)) Hd)
    as (dir & Heq).
  exists dir. rewrite Heq, insert_rtp_front. reflexivity.
Qed.

(** Lines 130-204 when no mode flag is set. *)
Lemma main_default (build : Build) (env : Environment) (raw : list string)
      (parser : Parser) :
  process (launcherArgs (partition raw)) = ret parser ->
  isSet parser "embed" = false ->
  isSet parser "server" = false ->
  isSet parser "spawn" = false ->
  main build env raw
  = connect (Spawn (runtimePath build env (neovimArgs (partition raw))
                    ++ positionalArguments parser)
                   (value parser "nvim")).
Proof.
  intros Hp He Hv Hs. rewrite (main_parsed build env raw parser Hp).
  unfold exclusive. rewrite He, Hv, Hs. simpl Z.ltb.
  rewrite when_false_then. unfold establish. rewrite He, Hv, Hs.
  reflexivity.
Qed.

(** C7.  A run in which the first candidate, the override from the
    environment, is a directory and the third one is consulted and used all
    the same: the build defines no compile-time default, the override is
    [/home/u/rt], the executable is [/usr/bin/nvim-qt] and
    [/usr/share/nvim-qt/runtime] exists.  Both directives are there, the one
    of the third candidate first. *)
Theorem C7_later_candidate_consulted :
  firstExistingCandidate linuxBuild overrideEnv = Some "/home/u/rt"
  /\ main linuxBuild overrideEnv ["nvim-qt"]
     = connect (Spawn ["--cmd"; "set rtp+=/usr/share/nvim-qt/runtime";
                       "--cmd"; "set rtp+=/home/u/rt";
                       "--cmd"; "set termguicolors"] "nvim")
  /\ main packagedBuild overrideEnv ["nvim-qt"]
     = connect (Spawn ["--cmd"; "set rtp+=/home/u/rt";
                       "--cmd"; "set termguicolors"] "nvim").
Proof. repeat split; vm_compute; reflexivity. Qed.

(** C8.  A run in which no candidate of the fallback chain is a directory
    and the tokens are there all the same: the executable is
    [/opt/app/bin/nvim-qt], [/opt/app/share] does not exist, every [cd]
    fails, and [d] is still [/opt/app], which exists.  A build with a
    compile-time default that does not exist does the same. *)
Theorem C8_tokens_without_candidate :
  candidates linuxBuild bareEnv = [""; "/opt/app/share/nvim-qt/runtime"]
  /\ firstExistingCandidate linuxBuild bareEnv = None
  /\ main linuxBuild bareEnv ["nvim-qt"]
     = connect (Spawn ["--cmd"; "set rtp+=/opt/app";
                       "--cmd"; "set termguicolors"] "nvim")
  /\ firstExistingCandidate packagedBuild bareEnv = None
  /\ main packagedBuild bareEnv ["nvim-qt"]
     = connect (Spawn ["--cmd"; "set rtp+=/opt/app";
                       "--cmd"; "set termguicolors"] "nvim").
Proof. repeat split; vm_compute; reflexivity. Qed.



(** * Further properties *)

(** ** The split, for every argument vector *)

Lemma first_occurrence (x : string) (l : list string) :
  In x l -> exists pre post, l = pre ++ x :: post /\ ~ In x pre.
Proof.
  induction l as [|y l IH]; intros Hin; [destruct Hin|].
  destruct (String.eqb_spec y x) as [->|Hne].
  - exists [], l. split; [reflexivity | intros []].
  - destruct Hin as [Heq|Hin]; [contradiction|].
    destruct (IH Hin) as (pre & post & -> & Hnot).
    exists (y :: pre), post. split; [reflexivity|].
    intros [Heq|H]; [contradiction | exact (Hnot H)].
Qed.

Lemma partition_at_marker (pre post : list string) :
  ~ In "--" pre -> ~ In "--spawn" pre ->
  partition (pre ++ "--" :: post)
  = mkPartition pre [] (["--cmd"; "set termguicolors"] ++ post).
Proof.
  intros Hm Hs. unfold partition, QList.indexOf.
  rewrite (indexOf_from_first pre post "--" 0 Hm).
  set (n := Z.of_nat (List.length pre)).
  assert (Hn : 0 <= n) by (subst n; lia).
  assert (Hc : negb (QList.indexOf_from (pre ++ "--" :: post) "--spawn" 0 =? -1)
               && ((QList.indexOf_from (pre ++ "--" :: post) "--spawn" 0
                    <? 0 + n) || (0 + n =? -1)) = false).
  { destruct (indexOf_from_behind pre post "--" "--spawn" 0 Hs) as [H|H];
      [discriminate| |].
    - rewrite H. reflexivity.
    - apply andb_false_iff. right. apply orb_false_iff. split.
      + apply Z.ltb_ge. lia.
      + apply Z.eqb_neq. lia. }
  assert (Hpost : QList.mid_from (pre ++ "--" :: post) (0 + n + 1) = post).
  { replace (pre ++ "--" :: post) with ((pre ++ ["--"]) ++ post)
      by (rewrite <- app_assoc; reflexivity).
    replace (0 + n + 1) with (Z.of_nat (List.length (pre ++ ["--"])))
      by (rewrite length_app; simpl; subst n; lia).
    apply mid_from_suffix. }
  assert (Hpre : QList.mid (pre ++ "--" :: post) 0 (0 + n) = pre).
  { replace (0 + n) with n by lia. apply mid_prefix. }
  rewrite Hc, Hpost, Hpre.
  replace (0 + n =? -1) with false by (symmetry; apply Z.eqb_neq; lia).
  reflexivity.
Qed.

Lemma partition_no_marker (raw : list string) :
  ~ In "--spawn" raw -> ~ In "--" raw ->
  partition raw = mkPartition raw [] ["--cmd"; "set termguicolors"].
Proof.
  intros Hs Hm. unfold partition, QList.indexOf.
  rewrite (indexOf_from_absent raw "--spawn" 0 Hs).
  rewrite (indexOf_from_absent raw "--" 0 Hm).
  reflexivity.
Qed.

(** The three branches, told apart by the first marker of the vector. *)
Lemma partition_cases (raw : list string) :
  (~ In "--spawn" raw /\ ~ In "--" raw
   /\ partition raw = mkPartition raw [] ["--cmd"; "set termguicolors"])
  \/ (exists pre post,
        raw = pre ++ "--spawn" :: post
        /\ ~ In "--spawn" pre /\ ~ In "--" pre
        /\ partition raw
           = mkPartition (pre ++ ["--spawn"]) post
                         ["--cmd"; "set termguicolors"])
  \/ (exists pre post,
        raw = pre ++ "--" :: post
        /\ ~ In "--spawn" pre /\ ~ In "--" pre
        /\ partition raw
           = mkPartition pre [] (["--cmd"; "set termguicolors"] ++ post)).
Proof.
  destruct (in_dec string_dec "--" raw) as [Hm|Hm].
  - destruct (first_occurrence _ _ Hm) as (pm & qm & -> & Hpm).
    destruct (in_dec string_dec "--spawn" pm) as [Hs|Hs].
    + destruct (first_occurrence _ _ Hs) as (ps & qs & -> & Hps).
      right. left. exists ps, (qs ++ "--" :: qm).
      assert (Hmps : ~ In "--" ps)
        by (intro H; apply Hpm; apply in_or_app; now left).
      repeat split; try assumption.
      * rewrite <- app_assoc. reflexivity.
      * rewrite <- app_assoc. simpl. now apply partition_at_spawn.
    + right. right. exists pm, qm. repeat split; try assumption.
      now apply partition_at_marker.
  - destruct (in_dec string_dec "--spawn" raw) as [Hs|Hs].
    + destruct (first_occurrence _ _ Hs) as (ps & qs & -> & Hps).
      right. left. exists ps, qs.
      assert (Hmps : ~ In "--" ps)
        by (intro H; apply Hm; apply in_or_app; now left).
      repeat split; try assumption. now apply partition_at_spawn.
    + left. repeat split; try assumption. now apply partition_no_marker.
Qed.

(** X1.  Every token of the vector is in exactly one place: the vector is
    the launcher's arguments followed by [spawnArgs], or the launcher's
    arguments, the [--] marker and what follows the directive in
    [neovimArgs]; and [neovimArgs] always starts with the directive. *)
Theorem partition_accounts_for_every_token (raw : list string) :
  let pr := partition raw in
  exists extra,
    neovimArgs pr = ["--cmd"; "set termguicolors"] ++ extra
    /\ ((raw = launcherArgs pr ++ spawnArgs pr /\ extra = [])
        \/ (raw = launcherArgs pr ++ "--" :: extra /\ spawnArgs pr = [])).
Proof.
  intros pr. subst pr.
  destruct (partition_cases raw)
    as [(_ & _ & ->)|[(pre & post & -> & _ & _ & ->)
                     |(pre & post & -> & _ & _ & ->)]]; simpl.
  - exists []. split; [reflexivity|]. left. now rewrite app_nil_r.
  - exists []. split; [reflexivity|]. left.
    now rewrite <- app_assoc.
  - exists post. split; [reflexivity|]. right. auto.
Qed.

Lemma In_removelast (x : string) (l : list string) :
  In x (removelast l) -> In x l.
Proof.
  induction l as [|y l IH]; [intros []|].
  destruct l as [|z l]; [intros []|].
  intros [->|H]; [now left | right; exact (IH H)].
Qed.

(** X2.  The parser is never handed the [--] marker, and [--spawn] only as
    the last of its arguments. *)
Theorem launcherArgs_hold_no_marker (raw : list string) :
  ~ In "--" (launcherArgs (partition raw))
  /\ ~ In "--spawn" (removelast (launcherArgs (partition raw))).
Proof.
  destruct (partition_cases raw)
    as [(Hs & Hm & ->)|[(pre & post & -> & Hs & Hm & ->)
                       |(pre & post & -> & Hs & Hm & ->)]];
    cbn [launcherArgs].
  - split; [exact Hm|]. intros H. exact (Hs (In_removelast _ _ H)).
  - split.
    + intros H. apply in_app_or in H. destruct H as [H|[H|[]]];
        [contradiction | discriminate].
    + rewrite removelast_last. exact Hs.
  - split; [exact Hm|]. intros H. exact (Hs (In_removelast _ _ H)).
Qed.

(** ** The ways a run can end *)

Lemma process_cases (args : list string) :
  (exists parser, process args = ret parser)
  \/ process args = ([HelpText], Exit 0)
  \/ (exists tr, process args = (tr ++ [ErrorMessage], Exit 1)
                 /\ forall c, ~ In (Open c) tr).
Proof.
  unfold process. destruct (parse args) as [p|].
  - destruct (error p).
    + right. right. exists []. split; [reflexivity | intros c []].
    + destruct (isSet p "help"); [right; left; reflexivity|].
      left. exists p. reflexivity.
  - right. right. eexists [Warning _]. split; [reflexivity|].
    intros c [H|[]]. discriminate.
Qed.

Lemma establish_cases (build : Build) (env : Environment)
      (positionalMarker : Z) (pr : PartitionResult) (parser : Parser) :
  (exists c, establish build env positionalMarker pr parser = connect c)
  \/ (exists msg, establish build env positionalMarker pr parser
                  = configurationError msg).
Proof.
  unfold establish.
  destruct (isSet parser "embed").
  { destruct (negb (QList.isEmpty (positionalArguments parser))
              || negb (positionalMarker =? -1)).
    - right. eexists. apply when_true_error.
    - left. eexists. apply when_false_then. }
  destruct (isSet parser "server").
  { destruct (negb (QList.isEmpty (positionalArguments parser))
              || negb (positionalMarker =? -1)).
    - right. eexists. apply when_true_error.
    - left. eexists. apply when_false_then. }
  destruct (isSet parser "spawn").
  { destruct (spawnArgs pr) as [|exe rest].
    - right. eexists. apply when_true_error.
    - left. eexists. simpl QList.isEmpty. rewrite when_false_then.
      reflexivity. }
  left. eexists. reflexivity.
Qed.

(** X3.  A run creates exactly one connector and prints nothing, or it ends
    in an exit without a connector: a configuration error, the usage text,
    or a parse error with exit code 1.  No assertion of [QList::at] fails. *)
Theorem main_one_connector_or_exit (build : Build) (env : Environment)
        (raw : list string) :
  (exists c, main build env raw = connect c)
  \/ (exists msg, main build env raw = configurationError msg)
  \/ main build env raw = ([HelpText], Exit 0)
  \/ (exists tr, main build env raw = (tr ++ [ErrorMessage], Exit 1)
                 /\ forall c, ~ In (Open c) tr).
Proof.
  destruct (process_cases (launcherArgs (partition raw)))
    as [(parser & Hp)|[Hh|(tr & He & Htr)]].
  - rewrite (main_parsed build env raw parser Hp).
    destruct (1 <? exclusive parser).
    + right. left. eexists. apply when_true_error.
    + rewrite when_false_then.
      destruct (establish_cases build env (QList.indexOf raw "--")
                  (partition raw) parser) as [(c & ->)|(msg & ->)].
      * left. now exists c.
      * right. left. now exists msg.
  - right. right. left. unfold main. rewrite Hh. reflexivity.
  - right. right. right. exists tr. split; [|exact Htr].
    unfold main. rewrite He. reflexivity.
Qed.

Lemma marker_absent (raw : list string) :
  ~ In "--" raw -> (QList.indexOf raw "--" =? -1) = true.
Proof.
  intros H. unfold QList.indexOf. now rewrite indexOf_from_absent.
Qed.

(** X4.  With [--embed] alone set, no positional argument and no [--] among
    the arguments, the connector is the one on standard input and output. *)
Theorem embed_connects_to_stdin_stdout (build : Build) (env : Environment)
        (raw : list string) (parser : Parser) :
  process (launcherArgs (partition raw)) = ret parser ->
  isSet parser "embed" = true ->
  isSet parser "server" = false ->
  isSet parser "spawn" = false ->
  positionalArguments parser = [] ->
  ~ In "--" raw ->
  main build env raw = connect FromStdinOut.
Proof.
  intros Hp He Hv Hs Hpos Hm.
  rewrite (main_parsed build env raw parser Hp).
  unfold exclusive. rewrite He, Hv, Hs. simpl Z.ltb.
  rewrite when_false_then. unfold establish.
  rewrite He, Hpos, (marker_absent raw Hm). reflexivity.
Qed.

Lemma embed_connects_witness :
  main linuxBuild bareEnv ["nvim-qt"; "--embed"; "--maximized"]
  = connect FromStdinOut.
Proof.
  assert (Hp : process (launcherArgs (partition
                 ["nvim-qt"; "--embed"; "--maximized"]))
               = ret (mkParser ["embed"; "maximized"] [] [] false))
    by (vm_compute; reflexivity).
  apply (embed_connects_to_stdin_stdout linuxBuild bareEnv _ _ Hp);
    try reflexivity.
  simpl. intros [H|[H|[H|[]]]]; discriminate.
Defined.

(** X5.  With [--server] alone set, no positional argument and no [--]
    among the arguments, the connector is the one to the address that is the
    option's value. *)
Theorem server_connects_to_address (build : Build) (env : Environment)
        (raw : list string) (parser : Parser) :
  process (launcherArgs (partition raw)) = ret parser ->
  isSet parser "embed" = false ->
  isSet parser "server" = true ->
  isSet parser "spawn" = false ->
  positionalArguments parser = [] ->
  ~ In "--" raw ->
  main build env raw = connect (ConnectToNeovim (value parser "server")).
Proof.
  intros Hp He Hv Hs Hpos Hm.
  rewrite (main_parsed build env raw parser Hp).
  unfold exclusive. rewrite He, Hv, Hs. simpl Z.ltb.
  rewrite when_false_then. unfold establish.
  rewrite He, Hv, Hpos, (marker_absent raw Hm). reflexivity.
Qed.

Lemma server_connects_witness :
  main linuxBuild bareEnv ["nvim-qt"; "--server"; "127.0.0.1:6666"]
  = connect (ConnectToNeovim "127.0.0.1:6666").
Proof.
  assert (Hp : process (launcherArgs (partition
                 ["nvim-qt"; "--server"; "127.0.0.1:6666"]))
               = ret (mkParser ["server"] [(6%nat, "127.0.0.1:6666")] []
                               false))
    by (vm_compute; reflexivity).
  apply (server_connects_to_address linuxBuild bareEnv _ _ Hp);
    try reflexivity.
  simpl. intros [H|[H|[H|[]]]]; discriminate.
Defined.

(** ** The parser on file names, and what it never takes back *)

Lemma prefix_empty (s : string) : String.prefix "" s = true.
Proof. destruct s; reflexivity. Qed.

Lemma prefix_cons (a b : ascii) (s1 s2 : string) :
  String.prefix (String a s1) (String b s2)
  = if ascii_dec a b then String.prefix s1 s2 else false.
Proof. reflexivity. Qed.

Lemma prefix_dash_dash (s : string) :
  String.prefix "-" s = false -> String.prefix "--" s = false.
Proof.
  destruct s as [|c s]; [reflexivity|]. rewrite !prefix_cons.
  destruct (ascii_dec "-" c); [|reflexivity].
  rewrite prefix_empty. discriminate.
Qed.

Lemma parse_loop_file (argument : string) (rest : list string) (p : Parser) :
  fileArgument argument = true ->
  parse_loop (argument :: rest) false p
  = parse_loop rest false (addPositional argument p).
Proof.
  unfold fileArgument. intros H. apply orb_true_iff in H.
  destruct H as [H|H].
  - apply negb_true_iff in H. cbn [parse_loop].
    rewrite (prefix_dash_dash _ H), H. reflexivity.
  - apply String.eqb_eq in H. subst argument. reflexivity.
Qed.

(** File names in front of the other arguments become positional
    arguments, in their order. *)
Lemma parse_loop_files (files rest : list string) :
  forall p : Parser,
  Forall (fun arg => fileArgument arg = true) files ->
  parse_loop (files ++ rest) false p
  = parse_loop rest false
      (mkParser (optionNames p) (optionValuesHash p)
                (positionalArgumentList p ++ files) (error p)).
Proof.
  induction files as [|f files IH]; intros p Hfiles.
  - simpl. rewrite app_nil_r. destruct p; reflexivity.
  - inversion Hfiles as [|? ? Hf Hrest]; subst.
    simpl app. rewrite (parse_loop_file f _ p Hf), (IH _ Hrest).
    simpl. rewrite <- app_assoc. reflexivity.
Qed.

Section ParserSteps.

(** A relation between a parser state and a later one that every step of
    the parser respects. *)
Variable R : Parser -> Parser -> Prop.
Hypothesis R_refl : forall p, R p p.
Hypothesis R_trans : forall p q r, R p q -> R q r -> R p r.
Hypothesis R_addPositional : forall a p, R p (addPositional a p).
Hypothesis R_setError : forall p, R p (setError p).
Hypothesis R_addValue : forall offset v p, R p (addValue offset v p).
Hypothesis R_register :
  forall name p p1 b, registerFoundOption name p = (b, p1) -> R p p1.

Lemma parseOptionValue_step (name argument : string) (next : option string)
      (p p' : Parser) (ok moved : bool) :
  parseOptionValue name argument next p = (ok, moved, p') -> R p p'.
Proof.
  unfold parseOptionValue.
  destruct (nameHash name) as [offset|];
    [destruct (withValue offset), (assignPos argument), next|];
    intros H; injection H as <- <- <-; auto.
Qed.

Lemma compactedShortOptions_step (chars : string) :
  forall (name : string) (err : bool) (p : Parser)
         (name' : string) (found err' : bool) (p' : Parser),
  compactedShortOptions chars name err p = (name', found, err', p') ->
  R p p' /\ (err = true -> err' = true).
Proof.
  induction chars as [|c rest IH]; intros name err p name' found err' p' H.
  - simpl in H. injection H as <- <- <- <-. auto.
  - simpl in H.
    destruct (registerFoundOption (String c "") p) as [[|] p1] eqn:Hr.
    + pose proof (R_register _ _ _ _ Hr) as Hp1.
      destruct (nameHash (String c "")) as [offset|].
      * destruct (withValue offset).
        -- destruct rest as [|c' rest'];
             injection H as <- <- <- <-; split; eauto.
        -- destruct rest as [|c' rest'].
           ++ destruct (IH _ _ _ _ _ _ _ H). split; eauto.
           ++ destruct (Ascii.eqb c' "=").
              ** injection H as <- <- <- <-. auto.
              ** destruct (IH _ _ _ _ _ _ _ H). split; eauto.
      * destruct (IH _ _ _ _ _ _ _ H) as [H1 H2].
        split; [exact H1 | intros _; now apply H2].
    + destruct (IH _ _ _ _ _ _ _ H) as [H1 H2].
      split; [exact H1 | intros _; now apply H2].
Qed.

Lemma parse_loop_step (n : nat) :
  forall (args : list string) (forcePositional : bool) (p : Parser),
  (List.length args <= n)%nat ->
  R p (parse_loop args forcePositional p).
Proof.
  induction n as [|n IH]; intros args fp p Hlen.
  - destruct args; [apply R_refl | simpl in Hlen; lia].
  - destruct args as [|argument rest]; [apply R_refl|].
    simpl in Hlen. assert (Hrest : (List.length rest <= n)%nat) by lia.
    assert (Htail : forall p3, R p3 match rest with
                                    | [] => p3
                                    | _ :: rest' => parse_loop rest' false p3
                                    end).
    { intros p3. destruct rest as [|x rest']; [apply R_refl|].
      apply IH. simpl in Hrest. lia. }
    assert (Hcond : forall (b : bool) q, R q (if b then q else setError q))
      by (intros [|] q; auto).
    simpl. destruct fp.
    { eapply R_trans; [apply R_addPositional | apply IH, Hrest]. }
    destruct (String.prefix "--" argument).
    + destruct (2 <? String.length argument)%nat.
      * destruct (registerFoundOption (beforeAssign (from 2 argument)) p)
          as [[|] p1] eqn:Hr.
        -- pose proof (R_register _ _ _ _ Hr) as Hp1.
           destruct (parseOptionValue (beforeAssign (from 2 argument))
                       argument (hd_error rest) p1)
             as [[ok moved] p2] eqn:Hpv.
           pose proof (parseOptionValue_step _ _ _ _ _ _ _ Hpv) as Hp2.
           eapply R_trans; [exact Hp1|]. eapply R_trans; [exact Hp2|].
           eapply R_trans; [apply (Hcond ok)|].
           destruct moved; [apply Htail | apply IH, Hrest].
        -- pose proof (R_register _ _ _ _ Hr) as Hp1.
           eapply R_trans; [exact Hp1|].
           eapply R_trans; [apply R_setError | apply IH, Hrest].
      * apply IH, Hrest.
    + destruct (String.prefix "-" argument).
      * destruct (String.length argument =? 1)%nat.
        -- eapply R_trans; [apply R_addPositional | apply IH, Hrest].
        -- destruct (compactedShortOptions (from 1 argument) "" (error p) p)
             as [[[name found] err] p1] eqn:Hc.
           destruct (compactedShortOptions_step _ _ _ _ _ _ _ _ Hc)
             as [Hp1 _].
           assert (Hp1' : R p (if err then setError p1 else p1))
             by (destruct err; eauto).
           eapply R_trans; [exact Hp1'|].
           destruct found; [apply IH, Hrest|].
           destruct (parseOptionValue name argument (hd_error rest)
                       (if err then setError p1 else p1))
             as [[ok moved] p2] eqn:Hpv.
           pose proof (parseOptionValue_step _ _ _ _ _ _ _ Hpv) as Hp2.
           eapply R_trans; [exact Hp2|].
           eapply R_trans; [apply (Hcond ok)|].
           destruct moved; [apply Htail | apply IH, Hrest].
      * eapply R_trans; [apply R_addPositional | apply IH, Hrest].
Qed.

End ParserSteps.

(** The parser forgets no option name and no error. *)
Lemma parse_loop_keeps (args : list string) (forcePositional : bool)
      (p : Parser) :
  (forall name, In name (optionNames p) ->
                In name (optionNames (parse_loop args forcePositional p)))
  /\ (error p = true -> error (parse_loop args forcePositional p) = true).
Proof.
  set (R := fun p q : Parser =>
              (forall name, In name (optionNames p) -> In name (optionNames q))
              /\ (error p = true -> error q = true)).
  change (R p (parse_loop args forcePositional p)).
  apply parse_loop_step with (n := List.length args); subst R; simpl;
    auto.
  - intros p0 q r [H1 H2] [H3 H4]. auto.
  - intros name p0 p1 b Hr. unfold registerFoundOption in Hr.
    destruct (nameHash name); injection Hr as <- <-; simpl; split; auto.
    intros x Hx. apply in_or_app. now left.
Qed.

Lemma isSet_keeps (p q : Parser) (name : string) :
  (forall x, In x (optionNames p) -> In x (optionNames q)) ->
  isSet p name = true -> isSet q name = true.
Proof.
  intros Hincl. unfold isSet, contains. intros H.
  apply orb_true_iff in H. apply orb_true_iff.
  destruct H as [H|H].
  - left. apply existsb_exists in H. destruct H as (x & Hx & Hxe).
    apply existsb_exists. exists x. auto.
  - right. apply existsb_exists in H. destruct H as (x & Hx & Hxe).
    apply existsb_exists. exists x. auto.
Qed.

(** ** From the argument vector to the connector *)

Lemma fileArgument_plain (arg : string) :
  fileArgument arg = true -> isMarker arg = false /\ isHelp arg = false.
Proof.
  unfold isMarker, isHelp. intros H.
  destruct (String.eqb_spec arg "--") as [->|_]; [discriminate|].
  destruct (String.eqb_spec arg "--spawn") as [->|_]; [discriminate|].
  destruct (String.eqb_spec arg "--help") as [->|_]; [discriminate|].
  destruct (String.eqb_spec arg "-h") as [->|_]; [discriminate|].
  auto.
Qed.

Lemma isMarker_false (arg : string) :
  isMarker arg = false <-> arg <> "--" /\ arg <> "--spawn".
Proof.
  unfold isMarker.
  destruct (String.eqb_spec arg "--"), (String.eqb_spec arg "--spawn");
    simpl; split; intros H; try discriminate; try tauto.
Qed.

Lemma no_marker_In (l : list string) :
  Forall (fun arg => isMarker arg = false) l ->
  ~ In "--" l /\ ~ In "--spawn" l.
Proof.
  intros H. rewrite Forall_forall in H.
  split; intros Hin; apply H in Hin; discriminate.
Qed.

Lemma files_no_marker (files : list string) :
  Forall (fun arg => fileArgument arg = true) files ->
  Forall (fun arg => isMarker arg = false) files.
Proof.
  intros H. eapply Forall_impl; [|exact H].
  intros a Ha. apply (fileArgument_plain a Ha).
Qed.

Lemma parse_loop_only_files (files : list string) (p : Parser) :
  Forall (fun arg => fileArgument arg = true) files ->
  parse_loop files false p
  = mkParser (optionNames p) (optionValuesHash p)
             (positionalArgumentList p ++ files) (error p).
Proof.
  intros H. rewrite <- (app_nil_r files) at 1.
  now rewrite parse_loop_files.
Qed.

Lemma process_parsed (exe : string) (rest : list string) (p : Parser) :
  parse_loop rest false initial = p ->
  error p = false -> isSet p "help" = false ->
  process (exe :: rest) = ret p.
Proof.
  intros Hp He Hh. unfold process. simpl parse. rewrite Hp, He, Hh.
  reflexivity.
Qed.

Lemma main_parse_error (build : Build) (env : Environment)
      (raw : list string) (p : Parser) :
  parse (launcherArgs (partition raw)) = Some p -> error p = true ->
  main build env raw = ([ErrorMessage], Exit 1).
Proof.
  intros Hp He. unfold main, process. rewrite Hp, He. reflexivity.
Qed.

(** X6.  File names after the program name, and nothing else: [nvim] is
    started with the runtime path directives, the true-colour directive and
    the file names in their order. *)
Theorem files_are_passed_to_nvim (build : Build) (env : Environment)
        (exe : string) (files : list string) :
  isMarker exe = false ->
  Forall (fun arg => fileArgument arg = true) files ->
  main build env (exe :: files)
  = connect (Spawn (runtimePath build env ["--cmd"; "set termguicolors"]
                    ++ files) "nvim").
Proof.
  intros Hexe Hfiles.
  destruct (no_marker_In (exe :: files)) as [Hm Hs];
    [constructor; [exact Hexe | now apply files_no_marker]|].
  assert (Hpart : partition (exe :: files)
                  = mkPartition (exe :: files) [] ["--cmd"; "set termguicolors"])
    by now apply partition_no_marker.
  assert (Hp : process (launcherArgs (partition (exe :: files)))
               = ret (mkParser [] [] files false)).
  { rewrite Hpart. apply process_parsed; try reflexivity.
    now rewrite parse_loop_only_files. }
  rewrite (main_default build env _ _ Hp eq_refl eq_refl eq_refl), Hpart.
  reflexivity.
Qed.

Lemma files_are_passed_witness :
  main linuxBuild bareEnv ["nvim-qt"; "a.txt"; "-"; "b.txt"]
  = connect (Spawn (runtimePath linuxBuild bareEnv
                      ["--cmd"; "set termguicolors"]
                    ++ ["a.txt"; "-"; "b.txt"]) "nvim").
Proof.
  apply (files_are_passed_to_nvim linuxBuild bareEnv "nvim-qt"
           ["a.txt"; "-"; "b.txt"]).
  - reflexivity.
  - repeat constructor.
Defined.

(** X7.  File names, then [--], then more arguments: the arguments behind
    the marker reach [nvim] in front of the file names. *)
Theorem forwarded_arguments_precede_files (build : Build) (env : Environment)
        (exe : string) (files extra : list string) :
  isMarker exe = false ->
  Forall (fun arg => fileArgument arg = true) files ->
  main build env (exe :: files ++ "--" :: extra)
  = connect (Spawn (runtimePath build env
                      (["--cmd"; "set termguicolors"] ++ extra)
                    ++ files) "nvim").
Proof.
  intros Hexe Hfiles.
  destruct (no_marker_In (exe :: files)) as [Hm Hs];
    [constructor; [exact Hexe | now apply files_no_marker]|].
  assert (Hpart : partition (exe :: files ++ "--" :: extra)
                  = mkPartition (exe :: files) []
                                (["--cmd"; "set termguicolors"] ++ extra))
    by (apply (partition_at_marker (exe :: files) extra); assumption).
  assert (Hp : process (launcherArgs
                          (partition (exe :: files ++ "--" :: extra)))
               = ret (mkParser [] [] files false)).
  { rewrite Hpart. apply process_parsed; try reflexivity.
    now rewrite parse_loop_only_files. }
  rewrite (main_default build env _ _ Hp eq_refl eq_refl eq_refl), Hpart.
  reflexivity.
Qed.

Lemma forwarded_arguments_witness :
  main linuxBuild bareEnv (["nvim-qt"; "a.txt"] ++ "--" :: ["-u"; "NONE"])
  = connect (Spawn (runtimePath linuxBuild bareEnv
                      (["--cmd"; "set termguicolors"] ++ ["-u"; "NONE"])
                    ++ ["a.txt"]) "nvim").
Proof.
  apply (forwarded_arguments_precede_files linuxBuild bareEnv "nvim-qt"
           ["a.txt"] ["-u"; "NONE"]).
  - reflexivity.
  - repeat constructor.
Defined.

(** X8.  In spawn mode the program and its arguments are the tokens behind
    [--spawn] as they stand, flags of the launcher among them included, and
    file names given before [--spawn] are passed to nobody. *)
Theorem spawn_takes_the_rest_verbatim (build : Build) (env : Environment)
        (exe prog : string) (files args : list string) :
  isMarker exe = false ->
  Forall (fun arg => fileArgument arg = true) files ->
  main build env (exe :: files ++ "--spawn" :: prog :: args)
  = connect (Spawn args prog).
Proof.
  intros Hexe Hfiles.
  destruct (no_marker_In (exe :: files)) as [Hm Hs];
    [constructor; [exact Hexe | now apply files_no_marker]|].
  assert (Hpart : partition (exe :: files ++ "--spawn" :: prog :: args)
                  = mkPartition (exe :: files ++ ["--spawn"]) (prog :: args)
                                ["--cmd"; "set termguicolors"])
    by (apply (partition_at_spawn (exe :: files) (prog :: args)); assumption).
  assert (Hp : process (launcherArgs
                 (partition (exe :: files ++ "--spawn" :: prog :: args)))
               = ret (mkParser ["spawn"] [] files false)).
  { rewrite Hpart. apply process_parsed; try reflexivity.
    simpl launcherArgs. now rewrite parse_loop_files. }
  rewrite (main_parsed build env _ _ Hp), Hpart.
  rewrite when_false_then by reflexivity.
  unfold establish. simpl. rewrite mid_from_tail. reflexivity.
Qed.

Lemma spawn_takes_the_rest_witness :
  main linuxBuild bareEnv
       ("nvim-qt" :: ["a.txt"] ++ "--spawn" :: "/bin/nvim" :: ["--embed"; "--"])
  = connect (Spawn ["--embed"; "--"] "/bin/nvim").
Proof.
  apply (spawn_takes_the_rest_verbatim linuxBuild bareEnv "nvim-qt"
           "/bin/nvim" ["a.txt"] ["--embed"; "--"]).
  - reflexivity.
  - repeat constructor.
Defined.

(** X9.  [--nvim path] makes [path] the program that is started, whatever
    [path] looks like, with the file names behind it as arguments. *)
Theorem nvim_option_names_the_program (build : Build) (env : Environment)
        (exe path : string) (files : list string) :
  isMarker exe = false -> isMarker path = false ->
  Forall (fun arg => fileArgument arg = true) files ->
  main build env (exe :: "--nvim" :: path :: files)
  = connect (Spawn (runtimePath build env ["--cmd"; "set termguicolors"]
                    ++ files) path).
Proof.
  intros Hexe Hpath Hfiles.
  destruct (no_marker_In (exe :: "--nvim" :: path :: files)) as [Hm Hs];
    [repeat constructor; try assumption; now apply files_no_marker|].
  assert (Hpart : partition (exe :: "--nvim" :: path :: files)
                  = mkPartition (exe :: "--nvim" :: path :: files) []
                                ["--cmd"; "set termguicolors"])
    by now apply partition_no_marker.
  assert (Hp : process (launcherArgs
                          (partition (exe :: "--nvim" :: path :: files)))
               = ret (mkParser ["nvim"] [(0%nat, path)] files false)).
  { rewrite Hpart. apply process_parsed; try reflexivity.
    change (parse_loop ("--nvim" :: path :: files) false initial)
      with (parse_loop files false
              (mkParser ["nvim"] [(0%nat, path)] [] false)).
    now rewrite parse_loop_only_files. }
  rewrite (main_default build env _ _ Hp eq_refl eq_refl eq_refl), Hpart.
  reflexivity.
Qed.

Lemma nvim_option_witness :
  main linuxBuild bareEnv ["nvim-qt"; "--nvim"; "-h"; "a.txt"]
  = connect (Spawn (runtimePath linuxBuild bareEnv
                      ["--cmd"; "set termguicolors"] ++ ["a.txt"]) "-h").
Proof.
  apply (nvim_option_names_the_program linuxBuild bareEnv "nvim-qt" "-h"
           ["a.txt"]).
  - reflexivity.
  - reflexivity.
  - repeat constructor.
Defined.

(** ** Parse errors and the help request *)

Lemma prefix_before (a b pre post : list string) (m : string) :
  a ++ b = pre ++ m :: post -> ~ In m a -> exists c, pre = a ++ c.
Proof.
  revert pre. induction a as [|x a IH]; intros pre Heq Hnot.
  - now exists pre.
  - destruct pre as [|y pre].
    + simpl in Heq. injection Heq as -> _. exfalso. apply Hnot. now left.
    + simpl in Heq. injection Heq as -> Heq.
      destruct (IH pre Heq) as (c & ->); [intro; apply Hnot; now right|].
      now exists c.
Qed.

(** The launcher's arguments start with every token in front of the first
    marker. *)
Lemma launcherArgs_keeps_prefix (a b : list string) :
  Forall (fun arg => isMarker arg = false) a ->
  exists b', launcherArgs (partition (a ++ b)) = a ++ b'.
Proof.
  intros Ha. destruct (no_marker_In a Ha) as [Hm Hs].
  destruct (partition_cases (a ++ b))
    as [(_ & _ & ->)|[(pre & post & Heq & _ & _ & ->)
                     |(pre & post & Heq & _ & _ & ->)]]; simpl.
  - now exists b.
  - destruct (prefix_before _ _ _ _ _ Heq Hs) as (c & ->).
    exists (c ++ ["--spawn"]). now rewrite app_assoc.
  - destruct (prefix_before _ _ _ _ _ Heq Hm) as (c & ->). now exists c.
Qed.

Lemma substring_all (s : string) :
  String.substring 0 (String.length s) s = s.
Proof. induction s as [|c s IH]; simpl; [reflexivity | now rewrite IH]. Qed.

Lemma from_two_dashes (name : string) :
  from 2 (String "-" (String "-" name)) = name.
Proof.
  unfold from. simpl String.length. simpl Nat.sub. rewrite Nat.sub_0_r.
  simpl. apply substring_all.
Qed.

(** One step of the parser on [--name] when the text before [=] is not the
    name of an option. *)
Lemma parse_loop_unknown (name : string) (rest : list string) (p : Parser) :
  name <> "" -> nameHash (beforeAssign name) = None ->
  parse_loop (String "-" (String "-" name) :: rest) false p
  = parse_loop rest false (setError p).
Proof.
  intros Hname Hnone. cbn [parse_loop].
  rewrite !prefix_cons, prefix_empty.
  destruct (ascii_dec "-" "-") as [_|Hne]; [|now contradiction Hne].
  destruct name as [|c name]; [contradiction|].
  cbn [String.length Nat.ltb Nat.leb].
  rewrite from_two_dashes. unfold registerFoundOption. rewrite Hnone.
  reflexivity.
Qed.

(** X10.  An option the launcher does not know, in front of any marker and
    after file names only, ends the run with the parser's error message and
    exit code 1, whatever follows it; no connector is created. *)
Theorem unknown_option_is_a_parse_error (build : Build) (env : Environment)
        (exe name : string) (files rest : list string) :
  isMarker exe = false ->
  Forall (fun arg => fileArgument arg = true) files ->
  name <> "" -> nameHash (beforeAssign name) = None ->
  main build env (exe :: files ++ String "-" (String "-" name) :: rest)
  = ([ErrorMessage], Exit 1).
Proof.
  intros Hexe Hfiles Hname Hnone.
  set (opt := String "-" (String "-" name)).
  assert (Hopt : isMarker opt = false).
  { apply isMarker_false. subst opt. split.
    - intros H. injection H as H. contradiction.
    - intros H. injection H as H. subst name. discriminate. }
  destruct (launcherArgs_keeps_prefix (exe :: files ++ [opt]) rest)
    as (b' & Hl).
  { constructor; [exact Hexe|]. apply Forall_app. split;
      [now apply files_no_marker | now constructor]. }
  replace (exe :: files ++ opt :: rest)
    with ((exe :: files ++ [opt]) ++ rest)
    by (simpl; now rewrite <- app_assoc).
  apply main_parse_error with
    (p := parse_loop b' false
            (setError (mkParser [] [] files false))).
  - rewrite Hl. simpl app at 1. rewrite <- app_assoc. simpl app.
    cbn [parse]. f_equal.
    rewrite parse_loop_files by assumption.
    subst opt. now rewrite parse_loop_unknown.
  - now apply parse_loop_keeps.
Qed.

Lemma unknown_option_witness :
  main linuxBuild bareEnv
       ("nvim-qt" :: ["a.txt"] ++ "--bogus=1" :: ["--embed"; "--"; "x"])
  = ([ErrorMessage], Exit 1).
Proof.
  apply (unknown_option_is_a_parse_error linuxBuild bareEnv "nvim-qt"
           "bogus=1" ["a.txt"] ["--embed"; "--"; "x"]).
  - reflexivity.
  - repeat constructor.
  - discriminate.
  - reflexivity.
Defined.

(** X11.  [--nvim], [--geometry] and [--server] want a value: as the last
    argument, or right in front of the [--] marker, each one ends the run
    with the parser's error message and exit code 1. *)
Theorem missing_value_is_a_parse_error (build : Build) (env : Environment)
        (exe opt : string) (files tail : list string) :
  isMarker exe = false ->
  Forall (fun arg => fileArgument arg = true) files ->
  In opt ["--nvim"; "--geometry"; "--server"] ->
  tail = [] \/ (exists extra, tail = "--" :: extra) ->
  main build env (exe :: files ++ opt :: tail) = ([ErrorMessage], Exit 1).
Proof.
  intros Hexe Hfiles Hopt Htail.
  assert (Hoptm : isMarker opt = false)
    by (destruct Hopt as [<-|[<-|[<-|[]]]]; reflexivity).
  destruct (no_marker_In (exe :: files ++ [opt])) as [Hm Hs].
  { constructor; [exact Hexe|]. apply Forall_app. split;
      [now apply files_no_marker | now constructor]. }
  assert (Hl : launcherArgs (partition (exe :: files ++ opt :: tail))
               = exe :: files ++ [opt]).
  { destruct Htail as [->|(extra & ->)].
    - now rewrite partition_no_marker.
    - replace (exe :: files ++ opt :: "--" :: extra)
        with ((exe :: files ++ [opt]) ++ "--" :: extra)
        by (simpl; now rewrite <- app_assoc).
      now rewrite partition_at_marker. }
  apply main_parse_error with
    (p := parse_loop [opt] false (mkParser [] [] files false)).
  - rewrite Hl. cbn [parse]. f_equal. now rewrite parse_loop_files.
  - destruct Hopt as [<-|[<-|[<-|[]]]]; reflexivity.
Qed.

Lemma missing_value_witness :
  main linuxBuild bareEnv ("nvim-qt" :: [] ++ "--server" :: ["--"; "addr"])
  = ([ErrorMessage], Exit 1).
Proof.
  apply (missing_value_is_a_parse_error linuxBuild bareEnv "nvim-qt"
           "--server" [] ["--"; "addr"]).
  - reflexivity.
  - constructor.
  - simpl. auto.
  - right. now exists ["addr"].
Defined.

Lemma isHelp_true (arg : string) :
  isHelp arg = true -> arg = "--help" \/ arg = "-h".
Proof.
  unfold isHelp. intros H. apply orb_true_iff in H.
  destruct H as [H|H]; apply String.eqb_eq in H; auto.
Qed.

(** X12.  [--help] or [-h] in front of any marker and after file names only:
    on Linux no GUI application object is made, and the run ends with the
    usage text, or with the parser's error message when a later argument
    is wrong; no connector is created. *)
Theorem help_needs_no_display (build : Build) (env : Environment)
        (exe h : string) (files rest : list string) :
  Q_OS_MAC build = false ->
  isMarker exe = false ->
  Forall (fun arg => fileArgument arg = true) files ->
  isHelp h = true ->
  createApplication false build (exe :: files ++ h :: rest) = CoreApplication
  /\ (main build env (exe :: files ++ h :: rest) = ([HelpText], Exit 0)
      \/ main build env (exe :: files ++ h :: rest)
         = ([ErrorMessage], Exit 1)).
Proof.
  intros Hmac Hexe Hfiles Hh.
  assert (Hhm : isMarker h = false)
    by (apply isHelp_true in Hh; destruct Hh as [->| ->]; reflexivity).
  split.
  - unfold createApplication. rewrite Hmac. simpl andb. cbv iota.
    cbn [createApplication_loop]. rewrite Hexe.
    destruct (isHelp exe); [reflexivity|].
    clear Hexe. induction Hfiles as [|f files Hf _ IH];
      cbn [app createApplication_loop].
    + now rewrite Hhm, Hh.
    + destruct (fileArgument_plain f Hf) as [-> ->]. exact IH.
  - destruct (launcherArgs_keeps_prefix (exe :: files ++ [h]) rest)
      as (b' & Hl).
    { constructor; [exact Hexe|]. apply Forall_app. split;
        [now apply files_no_marker | now constructor]. }
    replace (exe :: files ++ h :: rest)
      with ((exe :: files ++ [h]) ++ rest)
      by (simpl; now rewrite <- app_assoc).
    set (name := if String.eqb h "-h" then "h" else "help").
    set (p := parse_loop b' false (mkParser [name] [] files false)).
    assert (Hparse : parse (launcherArgs
                              (partition ((exe :: files ++ [h]) ++ rest)))
                     = Some p).
    { rewrite Hl. simpl app at 1. rewrite <- app_assoc. simpl app.
      cbn [parse]. f_equal. rewrite parse_loop_files by assumption.
      subst p name. apply isHelp_true in Hh.
      destruct Hh as [->| ->]; reflexivity. }
    assert (Hset : isSet p "help" = true).
    { subst p. eapply isSet_keeps; [apply parse_loop_keeps|].
      subst name. destruct (String.eqb h "-h"); reflexivity. }
    unfold main, process. rewrite Hparse.
    destruct (error p); [right; reflexivity|].
    rewrite Hset. left. reflexivity.
Qed.

Lemma help_needs_no_display_witness :
  createApplication false linuxBuild
    ("nvim-qt" :: ["a.txt"] ++ "-h" :: ["--"; "x"]) = CoreApplication
  /\ (main linuxBuild bareEnv ("nvim-qt" :: ["a.txt"] ++ "-h" :: ["--"; "x"])
      = ([HelpText], Exit 0)
      \/ main linuxBuild bareEnv
              ("nvim-qt" :: ["a.txt"] ++ "-h" :: ["--"; "x"])
         = ([ErrorMessage], Exit 1)).
Proof.
  apply (help_needs_no_display linuxBuild bareEnv "nvim-qt" "-h" ["a.txt"]
           ["--"; "x"]).
  - reflexivity.
  - reflexivity.
  - repeat constructor.
  - reflexivity.
Defined.

(** ** [createApplication] *)

Lemma isHelp_not_marker (arg : string) :
  isHelp arg = true -> isMarker arg = false.
Proof.
  intros H. apply isHelp_true in H. destruct H as [->| ->]; reflexivity.
Qed.

Lemma createApplication_loop_core (argv : list string) :
  createApplication_loop argv = CoreApplication <->
  exists pre h post,
    argv = pre ++ h :: post /\ isHelp h = true
    /\ Forall (fun arg => isMarker arg = false) pre.
Proof.
  split.
  - induction argv as [|arg argv IH]; [discriminate|].
    cbn [createApplication_loop].
    destruct (isMarker arg) eqn:Hm; [discriminate|].
    destruct (isHelp arg) eqn:Hh.
    + intros _. exists [], arg, argv. auto.
    + intros H. destruct (IH H) as (pre & h & post & -> & Hhelp & Hpre).
      exists (arg :: pre), h, post. auto.
  - intros (pre & h & post & -> & Hhelp & Hpre).
    induction Hpre as [|arg pre Harg _ IH]; cbn [app createApplication_loop].
    + now rewrite (isHelp_not_marker h Hhelp), Hhelp.
    + rewrite Harg. destruct (isHelp arg); [reflexivity | exact IH].
Qed.

(** X13.  No GUI application object is made exactly when the platform is
    neither Windows nor macOS and [--help] or [-h] stands somewhere in the
    vector, the program name included, with no [--] and no [--spawn] in
    front of it. *)
Theorem createApplication_core_iff (Q_OS_WIN : bool) (build : Build)
        (argv : list string) :
  createApplication Q_OS_WIN build argv = CoreApplication <->
  Q_OS_WIN = false /\ Q_OS_MAC build = false
  /\ exists pre h post,
       argv = pre ++ h :: post /\ isHelp h = true
       /\ Forall (fun arg => isMarker arg = false) pre.
Proof.
  unfold createApplication.
  destruct Q_OS_WIN, (Q_OS_MAC build); simpl;
    try (split; [discriminate | intros (H1 & H2 & _); discriminate]).
  rewrite createApplication_loop_core. tauto.
Qed.

Lemma createApplication_loop_stops (pre post : list string) (m : string) :
  isMarker m = true ->
  createApplication_loop (pre ++ m :: post) = createApplication_loop pre.
Proof.
  intros Hm. induction pre as [|arg pre IH]; cbn [app createApplication_loop].
  - now rewrite Hm.
  - now rewrite IH.
Qed.

(** X14.  Which application object is made depends on the launcher's part
    of the vector alone: what [--spawn] or [--] hands on to others is not
    looked at. *)
Theorem createApplication_reads_launcherArgs (Q_OS_WIN : bool)
        (build : Build) (raw : list string) :
  createApplication Q_OS_WIN build raw
  = createApplication Q_OS_WIN build (launcherArgs (partition raw)).
Proof.
  unfold createApplication.
  destruct (negb Q_OS_WIN && negb (Q_OS_MAC build)); [|reflexivity].
  destruct (partition_cases raw)
    as [(_ & _ & ->)|[(pre & post & -> & _ & _ & ->)
                     |(pre & post & -> & _ & _ & ->)]]; cbn [launcherArgs].
  - reflexivity.
  - now rewrite !createApplication_loop_stops.
  - now rewrite createApplication_loop_stops.
Qed.

(** X15.  The scan for [--help] and [-h] does not know which options take
    a value: behind [--nvim], [--geometry] or [--server] such a token is
    the option's value for the parser, so no GUI application object is
    made and the run goes on to create its connector all the same. *)
Theorem help_token_as_option_value (build : Build) (env : Environment)
        (exe opt h : string) :
  Q_OS_MAC build = false ->
  isMarker exe = false ->
  In opt ["--nvim"; "--geometry"; "--server"] ->
  isHelp h = true ->
  createApplication false build [exe; opt; h] = CoreApplication
  /\ exists c, main build env [exe; opt; h] = connect c.
Proof.
  intros Hmac Hexe Hopt Hh.
  assert (Hoptm : isMarker opt = false)
    by (destruct Hopt as [<-|[<-|[<-|[]]]]; reflexivity).
  pose proof (isHelp_not_marker h Hh) as Hhm.
  split.
  - unfold createApplication. rewrite Hmac. simpl andb. cbv iota.
    apply createApplication_loop_core.
    exists [exe; opt], h, []. repeat split; auto.
  - destruct (no_marker_In [exe; opt; h]) as [Hm Hs];
      [repeat constructor; assumption|].
    unfold main. rewrite (partition_no_marker _ Hs Hm).
    unfold QList.indexOf. rewrite (indexOf_from_absent _ _ 0 Hm).
    apply isHelp_true in Hh.
    destruct Hopt as [<-|[<-|[<-|[]]]]; destruct Hh as [->| ->];
      eexists; reflexivity.
Qed.

Lemma help_token_as_option_value_witness :
  createApplication false linuxBuild ["nvim-qt"; "--nvim"; "-h"]
  = CoreApplication
  /\ exists c, main linuxBuild bareEnv ["nvim-qt"; "--nvim"; "-h"] = connect c.
Proof.
  apply (help_token_as_option_value linuxBuild bareEnv "nvim-qt" "--nvim" "-h").
  - reflexivity.
  - reflexivity.
  - simpl. auto.
  - reflexivity.
Defined.

(** ** The login environment *)

Section StringFacts.

Local Open Scope string_scope.

Lemma append_assoc (a b c : string) : (a ++ b) ++ c = a ++ (b ++ c).
Proof. induction a as [|x a IH]; simpl; [reflexivity | now rewrite IH]. Qed.

Lemma append_empty_r (a : string) : a ++ "" = a.
Proof. induction a as [|x a IH]; simpl; [reflexivity | now rewrite IH]. Qed.

Lemma length_append (a b : string) :
  String.length (a ++ b) = (String.length a + String.length b)%nat.
Proof. induction a as [|x a IH]; simpl; [reflexivity | now rewrite IH]. Qed.

Lemma chars_append (a b : string) :
  list_ascii_of_string (a ++ b)
  = (list_ascii_of_string a ++ list_ascii_of_string b)%list.
Proof. induction a as [|x a IH]; simpl; [reflexivity | now rewrite IH]. Qed.

Lemma substring_append_l (a b : string) :
  String.substring 0 (String.length a) (a ++ b) = a.
Proof.
  induction a as [|x a IH]; simpl.
  - destruct b; reflexivity.
  - now rewrite IH.
Qed.

Lemma substring_append_r (a b : string) (m : nat) :
  String.substring (String.length a) m (a ++ b) = String.substring 0 m b.
Proof. induction a as [|x a IH]; simpl; [reflexivity | exact IH]. Qed.

Lemma from_append (a b : string) : from (String.length a) (a ++ b) = b.
Proof.
  unfold from. rewrite length_append, substring_append_r.
  replace (String.length a + String.length b - String.length a)%nat
    with (String.length b) by lia.
  apply substring_all.
Qed.

(** A line and its newline come off the front of the output. *)
Lemma split_line (line rest : string) :
  ~ In "010"%char (list_ascii_of_string line) ->
  QByteArray.split "010" (line ++ String "010" rest)
  = line :: QByteArray.split "010" rest.
Proof.
  induction line as [|c line IH]; intros Hnot.
  - reflexivity.
  - simpl in Hnot. cbn [append QByteArray.split].
    destruct (Ascii.eqb_spec c "010") as [->|_].
    + exfalso. apply Hnot. now left.
    + rewrite IH; [reflexivity|]. intro. apply Hnot. now right.
Qed.

(** The first [=] of [name=value] is the one behind [name]. *)
Lemma indexOf_assign (name value : string) :
  ~ In "="%char (list_ascii_of_string name) ->
  QByteArray.indexOf "=" (name ++ String "=" value)
  = Some (String.length name).
Proof.
  unfold QByteArray.indexOf.
  induction name as [|c name IH]; intros Hnot.
  - cbn [append String.index]. rewrite prefix_cons, prefix_empty.
    destruct (ascii_dec "=" "=") as [_|Hne]; [reflexivity|].
    now contradiction Hne.
  - simpl in Hnot. cbn [append String.index]. rewrite prefix_cons.
    destruct (ascii_dec "=" c) as [<-|_].
    + exfalso. apply Hnot. now left.
    + rewrite IH; [reflexivity|]. intro. apply Hnot. now right.
Qed.

End StringFacts.

Lemma putItem_binding (penv : ProcessEnvironment) (name value : string) :
  name <> "" ->
  ~ In "="%char (list_ascii_of_string name) ->
  putItem penv (name ++ String "=" value) = (name, value) :: penv.
Proof.
  intros Hname Hnot. unfold putItem. rewrite (indexOf_assign _ _ Hnot).
  destruct (String.length name) as [|i] eqn:Hlen.
  - destruct name; [contradiction | discriminate].
  - unfold qputenv. rewrite <- Hlen. f_equal. f_equal.
    + apply substring_append_l.
    + replace (S (String.length name))
        with (String.length (name ++ "=")%string)
        by (rewrite length_append; simpl; lia).
      replace (name ++ String "=" value)%string
        with ((name ++ "=") ++ value)%string
        by (rewrite append_assoc; reflexivity).
      apply from_append.
Qed.

Lemma printenv_lines (bindings : list (string * string)) :
  forall penv : ProcessEnvironment,
  Forall printable bindings ->
  fold_left putItem (QByteArray.split "010" (printenv bindings)) penv
  = rev bindings ++ penv.
Proof.
  induction bindings as [|[name value] bindings IH]; intros penv Hb.
  - reflexivity.
  - inversion Hb as [|? ? (Hname & Heq & Hnl & Hvl) Hrest]; subst.
    simpl in Hname, Heq, Hnl, Hvl. cbn [printenv].
    replace (name ++ "=" ++ value ++ String "010" (printenv bindings))%string
      with ((name ++ String "=" value)
            ++ String "010" (printenv bindings))%string
      by (rewrite append_assoc; reflexivity).
    rewrite split_line.
    + cbn [fold_left]. rewrite (putItem_binding _ _ _ Hname Heq).
      rewrite (IH _ Hrest). simpl rev. now rewrite <- app_assoc.
    + rewrite chars_append. intros H. apply in_app_or in H.
      destruct H as [H|[H|H]]; [exact (Hnl H) | discriminate | exact (Hvl H)].
Qed.

(** X16.  What [env] prints is read back whole: after a shell that printed
    the bindings, the environment holds them on top of the old ones, a
    later line before an earlier one, the value being everything behind the
    first [=] of its line. *)
Theorem login_environment_is_read_back (shell : string -> option string)
        (path : string) (penv : ProcessEnvironment)
        (bindings : list (string * string)) :
  Forall printable bindings ->
  shell path = Some (printenv bindings) ->
  getLoginEnvironment shell path penv = (true, rev bindings ++ penv).
Proof.
  intros Hb Hout. unfold getLoginEnvironment. rewrite Hout.
  now rewrite printenv_lines.
Qed.

Lemma login_environment_witness :
  getLoginEnvironment (fun _ => Some (printenv [("PATH", "/bin:/usr/bin");
                                                ("X", "a=b")]))
                      "/bin/zsh" [("SHELL", "/bin/zsh")]
  = (true, rev [("PATH", "/bin:/usr/bin"); ("X", "a=b")]
           ++ [("SHELL", "/bin/zsh")]).
Proof.
  apply login_environment_is_read_back; [|reflexivity].
  repeat constructor; simpl; try discriminate;
    intros H; repeat (destruct H as [H|H]; [discriminate|]); exact H.
Defined.

(** X17.  The shell named by [SHELL] is asked first and [/bin/bash] only
    when that one does not finish: with bindings from the first the second
    is of no account, with none from the first the bindings of the second
    are taken, and with neither the environment stays as it was. *)
Theorem login_shell_fallback (shell : string -> option string)
        (penv : ProcessEnvironment) (bindings : list (string * string)) :
  Forall printable bindings ->
  (shell (qgetenv penv "SHELL") = Some (printenv bindings) ->
   loadLoginEnvironmen shell penv = rev bindings ++ penv)
  /\ (shell (qgetenv penv "SHELL") = None ->
      shell "/bin/bash" = Some (printenv bindings) ->
      loadLoginEnvironmen shell penv = rev bindings ++ penv)
  /\ (shell (qgetenv penv "SHELL") = None ->
      shell "/bin/bash" = None ->
      loadLoginEnvironmen shell penv = penv).
Proof.
  intros Hb. unfold loadLoginEnvironmen, getLoginEnvironment.
  repeat split.
  - intros ->. now rewrite printenv_lines.
  - intros -> ->. now rewrite printenv_lines.
  - intros -> ->. reflexivity.
Qed.

Lemma login_shell_fallback_witness :
  loadLoginEnvironmen
    (fun path => if String.eqb path "/bin/bash"
                 then Some (printenv [("PATH", "/usr/local/bin")])
                 else None)
    [("SHELL", "/bin/fish")]
  = rev [("PATH", "/usr/local/bin")] ++ [("SHELL", "/bin/fish")].
Proof.
  refine (proj1 (proj2 (login_shell_fallback _ [("SHELL", "/bin/fish")]
                          [("PATH", "/usr/local/bin")] _)) eq_refl eq_refl).
  repeat constructor; simpl; try discriminate;
    intros H; repeat (destruct H as [H|H]; [discriminate|]); exact H.
Defined.

(** [main_login] is [main] in the environment that line 167 finds. *)
Lemma main_login_main (build : Build) (shell : string -> option string)
      (penv : ProcessEnvironment) (dir : string)
      (isDirectory : string -> bool) (raw : list string) :
  main_login build shell penv dir isDirectory raw
  = main build
         (mkEnvironment
            (qgetenv (if Q_OS_MAC build then loadLoginEnvironmen shell penv
                      else penv) "NVIM_QT_RUNTIME_PATH")
            dir isDirectory)
         raw.
Proof. reflexivity. Qed.

(** An override that is a directory has its directive among the
    arguments, in every build. *)
Lemma runtimePath_holds_override (build : Build) (env : Environment)
      (neovimArgs : list string) :
  QFileInfo.isDir env (qgetenv_NVIM_QT_RUNTIME_PATH env) = true ->
  In (set_rtp (qgetenv_NVIM_QT_RUNTIME_PATH env))
     (runtimePath build env neovimArgs).
Proof.
  intros Hdir. unfold runtimePath. rewrite Hdir.
  destruct (NVIM_QT_RUNTIME_PATH build) as [macro|].
  - rewrite insert_rtp_front. right. now left.
  - destruct (relativeRuntime_front build env
                (insert_rtp neovimArgs (qgetenv_NVIM_QT_RUNTIME_PATH env)))
      as (dirs & -> & _).
    apply in_or_app. right. rewrite insert_rtp_front. right. now left.
Qed.

(** X18.  On macOS a runtime path that only the login shell knows is used:
    when the last line the shell prints binds [NVIM_QT_RUNTIME_PATH] to a
    directory, a run in default mode starts [nvim] with the directive for
    that directory among its arguments. *)
Theorem login_runtime_path_is_used (build : Build)
        (shell : string -> option string) (penv : ProcessEnvironment)
        (dir : string) (isDirectory : string -> bool) (raw : list string)
        (parser : Parser) (bindings : list (string * string))
        (runtime : string) :
  Q_OS_MAC build = true ->
  process (launcherArgs (partition raw)) = ret parser ->
  isSet parser "embed" = false ->
  isSet parser "server" = false ->
  isSet parser "spawn" = false ->
  Forall printable (bindings ++ [("NVIM_QT_RUNTIME_PATH", runtime)]) ->
  shell (qgetenv penv "SHELL")
  = Some (printenv (bindings ++ [("NVIM_QT_RUNTIME_PATH", runtime)])) ->
  runtime <> "" -> isDirectory runtime = true ->
  exists args,
    main_login build shell penv dir isDirectory raw
    = connect (Spawn args (value parser "nvim"))
    /\ In (set_rtp runtime) args.
Proof.
  intros Hmac Hp He Hv Hs Hb Hout Hne Hdir.
  rewrite main_login_main, Hmac.
  assert (Hload : loadLoginEnvironmen shell penv
                  = rev (bindings ++ [("NVIM_QT_RUNTIME_PATH", runtime)])
                    ++ penv).
  { unfold loadLoginEnvironmen, getLoginEnvironment. rewrite Hout.
    now rewrite printenv_lines. }
  rewrite Hload, rev_unit. cbn [app qgetenv String.eqb].
  change (String.eqb "NVIM_QT_RUNTIME_PATH" "NVIM_QT_RUNTIME_PATH")
    with true. cbv iota.
  rewrite (main_default build _ raw parser Hp He Hv Hs).
  eexists. split; [reflexivity|].
  apply in_or_app. left.
  apply (runtimePath_holds_override build
           (mkEnvironment runtime dir isDirectory)).
  unfold QFileInfo.isDir. simpl.
  destruct (String.eqb_spec runtime ""); [contradiction | exact Hdir].
Qed.

Lemma login_runtime_path_witness :
  exists args,
    main_login (mkBuild true None)
               (fun _ => Some (printenv ([("PATH", "/bin")]
                                ++ [("NVIM_QT_RUNTIME_PATH", "/Users/u/rt")])))
               [] "/Applications/nvim-qt.app/Contents"
               (directories ["/Users/u/rt"]) ["nvim-qt"]
    = connect (Spawn args (value (mkParser [] [] [] false) "nvim"))
    /\ In (set_rtp "/Users/u/rt") args.
Proof.
  apply (login_runtime_path_is_used (mkBuild true None) _ []
           "/Applications/nvim-qt.app/Contents"
           (directories ["/Users/u/rt"]) ["nvim-qt"]
           (mkParser [] [] [] false) [("PATH", "/bin")] "/Users/u/rt");
    try reflexivity; try discriminate.
  repeat constructor; simpl; try discriminate;
    intros H; repeat (destruct H as [H|H]; [discriminate|]); exact H.
Defined.

(** ** The log file *)

Lemma logger_closed (penv : ProcessEnvironment) (files : Files)
      (msgs : list string) :
  canAppend files (qgetenv penv "NVIM_QT_LOG") = false ->
  fold_left (logger penv) msgs files = files.
Proof.
  intros Hc. induction msgs as [|msg msgs IH]; [reflexivity|].
  cbn [fold_left]. unfold logger at 2. rewrite Hc. exact IH.
Qed.

(** X19.  Messages go to the end of the file that [NVIM_QT_LOG] names, one
    line each and in their order, after what the file held; no other file
    changes; and when that file cannot be opened nothing changes at all. *)
Theorem logger_appends_in_order (penv : ProcessEnvironment) (files : Files)
        (msgs : list string) :
  let logFile := qgetenv penv "NVIM_QT_LOG" in
  let files' := fold_left (logger penv) msgs files in
  (canAppend files logFile = true ->
   content files' logFile
   = (content files logFile
      ++ String.concat "" (map (fun msg => msg ++ String "010" "") msgs))%string
   /\ forall path, path <> logFile -> content files' path = content files path)
  /\ (canAppend files logFile = false -> files' = files).
Proof.
  intros logFile files'. subst files'. split; [|apply logger_closed].
  revert files. induction msgs as [|msg msgs IH]; intros files Hc.
  - simpl. split; [now rewrite append_empty_r | reflexivity].
  - cbn [fold_left]. unfold logger at 2 4. fold logFile. rewrite Hc.
    set (files1 := mkFiles _ _).
    destruct (IH files1 Hc) as [Hlog Hother]. split.
    + rewrite Hlog. subst files1. cbn [content].
      rewrite String.eqb_refl. cbn [map].
      destruct msgs as [|m msgs'].
      * cbn [map String.concat]. now rewrite !append_empty_r.
      * cbn [map String.concat]. simpl String.append at 3.
        rewrite !append_assoc. reflexivity.
    + intros path Hpath. rewrite (Hother path Hpath).
      subst files1. cbn [content].
      destruct (String.eqb_spec path logFile); [contradiction|reflexivity].
Qed.

Lemma logger_appends_witness :
  content (fold_left (logger [("NVIM_QT_LOG", "/tmp/nvim-qt.log")])
                     ["first"; "second"]
                     (mkFiles (fun _ => true) (fun _ => "old")))
          "/tmp/nvim-qt.log"
  = ("old" ++ String.concat "" (map (fun msg => msg ++ String "010" "")
                                    ["first"; "second"]))%string.
Proof.
  exact (proj1 (proj1 (logger_appends_in_order
                         [("NVIM_QT_LOG", "/tmp/nvim-qt.log")]
                         (mkFiles (fun _ => true) (fun _ => "old"))
                         ["first"; "second"]) eq_refl)).
Defined.
